(** * Bino display widget (src/widget.cpp): a shallow embedding

    The widget is a record of the member variables of [class Widget],
    every member function a function on that record.  OpenGL calls and
    the calls into the player ([_bino->render], [update()]) are recorded
    in a trace, so that "this view is rendered" or "this texture gets new
    storage" are statements about the trace of one call.  What the
    widget asks of its surroundings (the frame geometry reported by
    [_bino->preRenderProcess], the OpenGL context, the position of a
    pointer event) is an argument of the function that asks.

    C++ [float] is IEEE binary32 and Qt's [qreal] is IEEE binary64; both
    are the executable operations of [SpecFloat] (round to nearest, ties
    to even), so that every function can be run on concrete numbers.
    C++ [int] is [Z]; the code does no integer arithmetic that could
    wrap.  The two-element arrays of texture sizes are lists, read and
    written at the index of the view.

    Of the OpenGL calls the trace keeps those that allocate, render
    and draw; the binding of the framebuffer, of the shader program
    [_prg] and of the vertex array [_quadVao] in [paintGL], which changes
    no member, is left out.  Qt computes the frustum and the rotation of
    the 360 degree view from the angles of the widget; the model stops
    at the angles.

    The file has two parts: the model, then its properties.  The
    properties of the aspect fit need facts about rounding to binary32,
    which are proved from the definitions of [SpecFloat]. *)

From Stdlib Require Import ZArith Bool Ascii String Lia.
From Stdlib Require Import Floats.SpecFloat.
From stdpp Require Import base list.

Open Scope Z_scope.

(** ** Floating point *)

(** IEEE binary32, the C++ [float]. *)
Module F32.
Definition prec : Z := 24.
Definition emax : Z := 128.
Definition float := spec_float.

Definition add : float -> float -> float := SFadd prec emax.
Definition mul : float -> float -> float := SFmul prec emax.
Definition div : float -> float -> float := SFdiv prec emax.
Definition opp : float -> float := SFopp.
Definition ltb : float -> float -> bool := SFltb.
Definition leb : float -> float -> bool := SFleb.
Definition eqb : float -> float -> bool := SFeqb.

(** Conversion [float(i)] of an [int]. *)
Definition of_int (i : Z) : float := binary_normalize prec emax i 0 false.

(** Conversion of a binary64 value to binary32 ([float dx = posDelta.x()]). *)
Definition of_double (d : spec_float) : float :=
  match d with
  | S754_finite s m e => binary_round prec emax s m e
  | _ => d
  end.

Definition zero : float := S754_zero false.
Definition one : float := of_int 1.
End F32.

(** IEEE binary64, Qt's [qreal] (the coordinates of a [QPointF]). *)
Module F64.
Definition prec : Z := 53.
Definition emax : Z := 1024.
Definition float := spec_float.

Definition sub : float -> float -> float := SFsub prec emax.
Definition of_int (i : Z) : float := binary_normalize prec emax i 0 false.
End F64.

Record QPointF := { xp : F64.float; yp : F64.float }.

(** [operator-(const QPointF &, const QPointF &)] *)
Definition QPointF_sub (p1 p2 : QPointF) : QPointF :=
  {| xp := F64.sub (xp p1) (xp p2); yp := F64.sub (yp p1) (yp p2) |}.

(** ** Stereo modes

    [enum StereoMode] is declared in widget.hpp; its enumerators are the
    case labels of the switch in [paintGL]. *)
Inductive StereoMode :=
  | Mode_Left
  | Mode_Right
  | Mode_Alternating
  | Mode_OpenGL_Stereo
  | Mode_Red_Cyan_Dubois
  | Mode_Red_Cyan_FullColor
  | Mode_Red_Cyan_HalfColor
  | Mode_Red_Cyan_Monochrome
  | Mode_Green_Magenta_Dubois
  | Mode_Green_Magenta_FullColor
  | Mode_Green_Magenta_HalfColor
  | Mode_Green_Magenta_Monochrome
  | Mode_Amber_Blue_Dubois
  | Mode_Amber_Blue_FullColor
  | Mode_Amber_Blue_HalfColor
  | Mode_Amber_Blue_Monochrome
  | Mode_Red_Green_Monochrome
  | Mode_Red_Blue_Monochrome.

#[global] Instance StereoMode_eq_dec : EqDecision StereoMode.
Proof. solve_decision. Defined.

(** ** The shader program

    The member [_prg] is a [QOpenGLShaderProgram].  The model keeps what
    the widget has done to it: the shaders it has added, in order, with
    their source text, and whether it has called [link()]. *)
Inductive ShaderType := Vertex | Fragment.

Record QOpenGLShaderProgram := {
  shaders : list (ShaderType * string);
  linkCalled : bool
}.

Definition addShaderFromSourceCode (type : ShaderType) (source : string)
    (prg : QOpenGLShaderProgram) : QOpenGLShaderProgram :=
  {| shaders := shaders prg ++ [(type, source)];
     linkCalled := linkCalled prg |}.

Definition link (prg : QOpenGLShaderProgram) : QOpenGLShaderProgram :=
  {| shaders := shaders prg; linkCalled := true |}.

(** ** The widget state: the member variables of [class Widget]

    [_viewTex] holds the names of the two view textures and [_quadVao]
    the name of the vertex array of the quad, as OpenGL has generated
    them. *)
Record Widget := {
  _stereoMode : StereoMode;
  _openGLStereo : bool;
  _alternatingLastView : Z;
  _width : Z;
  _height : Z;
  _viewTex : list Z;
  _viewTexWidth : list Z;
  _viewTexHeight : list Z;
  _quadVao : Z;
  _prg : QOpenGLShaderProgram;
  _inThreeSixtyMovement : bool;
  _threeSixtyMovementStart : QPointF;
  _threeSixtyHorizontalAngleBase : F32.float;
  _threeSixtyVerticalAngleBase : F32.float;
  _threeSixtyHorizontalAngleCurrent : F32.float;
  _threeSixtyVerticalAngleCurrent : F32.float
}.

(** ** The trace of external calls

    A call that works on the texture of a view carries the index [v] of
    the view; the texture is the one named [_viewTex[v]]. *)
Inductive TexFormat := GL_RGB10_A2 | GL_RGB16 | GL_RGBA16.
Inductive DrawBuf := GL_BACK_LEFT | GL_BACK_RIGHT.

Inductive Call :=
  | glBindTexture (v : Z)
  | glTexImage2D (v : Z) (internalFormat : TexFormat) (w h : Z)
  | binoRender (threeSixtyAngles : option (F32.float * F32.float))
               (v : Z) (w h : Z)
  | glGenerateMipmap (v : Z)
  | glViewport (w h : Z)
  | setRelative (relWidth relHeight : F32.float)
  | setStereoModeUniform (m : StereoMode)
  | glDrawBuffer (b : DrawBuf)
  | glDrawElements
  | update.

Definition is_glTexImage2D (c : Call) : bool :=
  match c with glTexImage2D _ _ _ _ => true | _ => false end.

Definition is_glTexImage2D_of (v : Z) (c : Call) : bool :=
  match c with glTexImage2D v' _ _ _ => v' =? v | _ => false end.

Definition is_binoRender_of (v : Z) (c : Call) : bool :=
  match c with binoRender _ v' _ _ => v' =? v | _ => false end.

(** ** Accessors and setters *)

Definition setStereoMode (mode : StereoMode) (w : Widget) : Widget :=
  {| _stereoMode := mode;
     _openGLStereo := _openGLStereo w;
     _alternatingLastView := _alternatingLastView w;
     _width := _width w;
     _height := _height w;
     _viewTex := _viewTex w;
     _viewTexWidth := _viewTexWidth w;
     _viewTexHeight := _viewTexHeight w;
     _quadVao := _quadVao w;
     _prg := _prg w;
     _inThreeSixtyMovement := _inThreeSixtyMovement w;
     _threeSixtyMovementStart := _threeSixtyMovementStart w;
     _threeSixtyHorizontalAngleBase := _threeSixtyHorizontalAngleBase w;
     _threeSixtyVerticalAngleBase := _threeSixtyVerticalAngleBase w;
     _threeSixtyHorizontalAngleCurrent := _threeSixtyHorizontalAngleCurrent w;
     _threeSixtyVerticalAngleCurrent := _threeSixtyVerticalAngleCurrent w |}.

Definition stereoMode (w : Widget) : StereoMode := _stereoMode w.

Definition isOpenGLStereo (w : Widget) : bool := _openGLStereo w.

Definition resizeGL (w h : Z) (s : Widget) : Widget :=
  {| _stereoMode := _stereoMode s;
     _openGLStereo := _openGLStereo s;
     _alternatingLastView := _alternatingLastView s;
     _width := w;
     _height := h;
     _viewTex := _viewTex s;
     _viewTexWidth := _viewTexWidth s;
     _viewTexHeight := _viewTexHeight s;
     _quadVao := _quadVao s;
     _prg := _prg s;
     _inThreeSixtyMovement := _inThreeSixtyMovement s;
     _threeSixtyMovementStart := _threeSixtyMovementStart s;
     _threeSixtyHorizontalAngleBase := _threeSixtyHorizontalAngleBase s;
     _threeSixtyVerticalAngleBase := _threeSixtyVerticalAngleBase s;
     _threeSixtyHorizontalAngleCurrent := _threeSixtyHorizontalAngleCurrent s;
     _threeSixtyVerticalAngleCurrent := _threeSixtyVerticalAngleCurrent s |}.

(** Writes to the members that more than one function assigns. *)
Definition set_viewTexSize (v : Z) (viewWidth viewHeight : Z) (w : Widget)
  : Widget :=
  {| _stereoMode := _stereoMode w;
     _openGLStereo := _openGLStereo w;
     _alternatingLastView := _alternatingLastView w;
     _width := _width w;
     _height := _height w;
     _viewTex := _viewTex w;
     _viewTexWidth := <[Z.to_nat v := viewWidth]> (_viewTexWidth w);
     _viewTexHeight := <[Z.to_nat v := viewHeight]> (_viewTexHeight w);
     _quadVao := _quadVao w;
     _prg := _prg w;
     _inThreeSixtyMovement := _inThreeSixtyMovement w;
     _threeSixtyMovementStart := _threeSixtyMovementStart w;
     _threeSixtyHorizontalAngleBase := _threeSixtyHorizontalAngleBase w;
     _threeSixtyVerticalAngleBase := _threeSixtyVerticalAngleBase w;
     _threeSixtyHorizontalAngleCurrent := _threeSixtyHorizontalAngleCurrent w;
     _threeSixtyVerticalAngleCurrent := _threeSixtyVerticalAngleCurrent w |}.

Definition set_alternatingLastView (a : Z) (w : Widget) : Widget :=
  {| _stereoMode := _stereoMode w;
     _openGLStereo := _openGLStereo w;
     _alternatingLastView := a;
     _width := _width w;
     _height := _height w;
     _viewTex := _viewTex w;
     _viewTexWidth := _viewTexWidth w;
     _viewTexHeight := _viewTexHeight w;
     _quadVao := _quadVao w;
     _prg := _prg w;
     _inThreeSixtyMovement := _inThreeSixtyMovement w;
     _threeSixtyMovementStart := _threeSixtyMovementStart w;
     _threeSixtyHorizontalAngleBase := _threeSixtyHorizontalAngleBase w;
     _threeSixtyVerticalAngleBase := _threeSixtyVerticalAngleBase w;
     _threeSixtyHorizontalAngleCurrent := _threeSixtyHorizontalAngleCurrent w;
     _threeSixtyVerticalAngleCurrent := _threeSixtyVerticalAngleCurrent w |}.

(** The names of the OpenGL objects and the shader program. *)
Definition set_glObjects (viewTex : list Z) (quadVao : Z)
    (prg : QOpenGLShaderProgram) (w : Widget) : Widget :=
  {| _stereoMode := _stereoMode w;
     _openGLStereo := _openGLStereo w;
     _alternatingLastView := _alternatingLastView w;
     _width := _width w;
     _height := _height w;
     _viewTex := viewTex;
     _viewTexWidth := _viewTexWidth w;
     _viewTexHeight := _viewTexHeight w;
     _quadVao := quadVao;
     _prg := prg;
     _inThreeSixtyMovement := _inThreeSixtyMovement w;
     _threeSixtyMovementStart := _threeSixtyMovementStart w;
     _threeSixtyHorizontalAngleBase := _threeSixtyHorizontalAngleBase w;
     _threeSixtyVerticalAngleBase := _threeSixtyVerticalAngleBase w;
     _threeSixtyHorizontalAngleCurrent := _threeSixtyHorizontalAngleCurrent w;
     _threeSixtyVerticalAngleCurrent := _threeSixtyVerticalAngleCurrent w |}.

(** The five members of the 360 degree orientation, and the start point. *)
Definition set_threeSixty (active : bool) (start : QPointF)
    (hBase vBase hCurrent vCurrent : F32.float) (w : Widget) : Widget :=
  {| _stereoMode := _stereoMode w;
     _openGLStereo := _openGLStereo w;
     _alternatingLastView := _alternatingLastView w;
     _width := _width w;
     _height := _height w;
     _viewTex := _viewTex w;
     _viewTexWidth := _viewTexWidth w;
     _viewTexHeight := _viewTexHeight w;
     _quadVao := _quadVao w;
     _prg := _prg w;
     _inThreeSixtyMovement := active;
     _threeSixtyMovementStart := start;
     _threeSixtyHorizontalAngleBase := hBase;
     _threeSixtyVerticalAngleBase := vBase;
     _threeSixtyHorizontalAngleCurrent := hCurrent;
     _threeSixtyVerticalAngleCurrent := vCurrent |}.

(** ** Commands: a member function that changes the widget and makes
    external calls *)
Definition Cmd := Widget -> Widget * list Call.

Definition emit (cs : list Call) : Cmd := fun w => (w, cs).
Definition skip : Cmd := emit [].
Definition modify (f : Widget -> Widget) : Cmd := fun w => (f w, []).

Definition seq (c1 c2 : Cmd) : Cmd :=
  fun w =>
    let '(w1, t1) := c1 w in
    let '(w2, t2) := c2 w1 in
    (w2, t1 ++ t2).

Notation "c1 >>> c2" := (seq c1 c2) (at level 62, right associativity).

(** [for (int v = ...; ...; v++) body], over the values [v] takes. *)
Fixpoint for_each (vs : list Z) (body : Z -> Cmd) : Cmd :=
  match vs with
  | [] => skip
  | v :: vs' => body v >>> for_each vs' body
  end.

(** The process ends in [std::exit], or the function returns. *)
Inductive Outcome (A : Type) :=
  | Exit (status : Z) (diagnostic : string)
  | Returns (a : A).
Arguments Exit {A} status diagnostic.
Arguments Returns {A} a.

Definition exits {A} (o : Outcome A) : bool :=
  match o with Exit _ _ => true | Returns _ => false end.

(** ** [Widget::initializeGL] *)

(** What the function reads of [QSurfaceFormat] and [QOpenGLContext]. *)
Record QSurfaceFormat := {
  majorVersion : Z;
  minorVersion : Z;
  stereo : bool
}.

Record QOpenGLContext := {
  isValid : bool;
  format : QSurfaceFormat;
  isOpenGLES : bool
}.

Definition contextIsOk (context : QOpenGLContext) : bool :=
  isValid context
  && (3 <=? majorVersion (format context))
  && (2 <=? minorVersion (format context)).

(** The body of the loop over the two view textures (lines 112-126). *)
Definition initViewTexture (isGLES : bool) (i : Z) : Cmd :=
  emit [glBindTexture i;
        glTexImage2D i (if isGLES then GL_RGB10_A2 else GL_RGBA16) 1 1] >>>
  modify (set_viewTexSize i 1 1).

(** What OpenGL and the resource files hand to the function once it has
    passed its two tests: the two names that [glGenTextures] writes
    into [_viewTex], the name that [glGenVertexArrays] writes into
    [_quadVao], and the text of the two shader files. *)
Record GLResources := {
  genTextures : Z * Z;
  genVertexArrays : Z;
  vertexShaderFile : string;
  fragmentShaderFile : string
}.

(** Line 111. *)
Definition genViewTextures (gl : GLResources) : Cmd :=
  fun w =>
    modify (set_glObjects [fst (genTextures gl); snd (genTextures gl)]
              (_quadVao w) (_prg w)) w.

(** Line 145. *)
Definition genQuadVao (gl : GLResources) : Cmd :=
  fun w => modify (set_glObjects (_viewTex w) (genVertexArrays gl) (_prg w)) w.

Definition newline : string := String "010"%char EmptyString.

(** Lines 166-175: the source of the two shaders, the text of the file
    with the version line put in front. *)
Definition vertexShaderSource (isGLES : bool) (gl : GLResources) : string :=
  if isGLES then
    String.append (String.append "#version 320 es" newline)
                  (vertexShaderFile gl)
  else
    String.append (String.append "#version 330" newline) (vertexShaderFile gl).

Definition fragmentShaderSource (isGLES : bool) (gl : GLResources) : string :=
  if isGLES then
    String.append
      (String.append (String.append "#version 320 es" newline)
                     (String.append "precision mediump float;" newline))
      (fragmentShaderFile gl)
  else
    String.append (String.append "#version 330" newline)
                  (fragmentShaderFile gl).

(** Lines 176-178.  The results of compiling and of linking are not
    read. *)
Definition buildProgram (isGLES : bool) (gl : GLResources) : Cmd :=
  fun w =>
    modify (set_glObjects (_viewTex w) (_quadVao w)
              (link
                 (addShaderFromSourceCode Fragment
                    (fragmentShaderSource isGLES gl)
                    (addShaderFromSourceCode Vertex
                       (vertexShaderSource isGLES gl) (_prg w))))) w.

(** [defaultFormatStereo] is [QSurfaceFormat::defaultFormat().stereo()].
    The two tests come before the first call of OpenGL, so that whether
    the process ends does not depend on [gl]; when it does not end, the
    function goes on with what OpenGL and the resource files give it.
    The trace keeps the calls on the view textures; the buffers of the
    quad (lines 147-162), which are locals, and [_bino->initProcess()]
    are left out. *)
Definition initializeGL (defaultFormatStereo : bool)
    (context : QOpenGLContext) (w : Widget)
  : Outcome (GLResources -> Widget * list Call) :=
  if negb (contextIsOk context) then
    Exit 1 "Insufficient OpenGL capabilities."
  else if defaultFormatStereo && negb (stereo (format context)) then
    Exit 1 "OpenGL stereo mode is not available on this system."
  else
    let isGLES := isOpenGLES context in
    Returns (fun gl =>
      (genViewTextures gl >>>
       for_each [0; 1] (initViewTexture isGLES) >>>
       genQuadVao gl >>>
       buildProgram isGLES gl) w).

(** ** [Widget::paintGL] *)

(** The out-parameters of [_bino->preRenderProcess]. *)
Record FrameGeometry := {
  viewCount : Z;
  viewWidth : Z;
  viewHeight : Z;
  frameDisplayAspectRatio : F32.float;
  threeSixty : bool
}.

Definition frameIsStereo (fg : FrameGeometry) : bool := viewCount fg =? 2.

(** Lines 196-199: the local [stereoMode], a copy of [_stereoMode]
    that a mono frame turns into [Mode_Left]. *)
Definition adjustStereoMode (w : Widget) (fg : FrameGeometry) : StereoMode :=
  let stereoMode := _stereoMode w in
  if negb (frameIsStereo fg) then Mode_Left else stereoMode.

(** Lines 203-230: the switch that decides [needThisView]. *)
Definition needThisView (stereoMode : StereoMode) (alternatingLastView : Z)
    (v : Z) : bool :=
  match stereoMode with
  | Mode_Left => v =? 0
  | Mode_Right => v =? 1
  | Mode_Alternating => negb (v =? alternatingLastView)
  | Mode_OpenGL_Stereo
  | Mode_Red_Cyan_Dubois
  | Mode_Red_Cyan_FullColor
  | Mode_Red_Cyan_HalfColor
  | Mode_Red_Cyan_Monochrome
  | Mode_Green_Magenta_Dubois
  | Mode_Green_Magenta_FullColor
  | Mode_Green_Magenta_HalfColor
  | Mode_Green_Magenta_Monochrome
  | Mode_Amber_Blue_Dubois
  | Mode_Amber_Blue_FullColor
  | Mode_Amber_Blue_HalfColor
  | Mode_Amber_Blue_Monochrome
  | Mode_Red_Green_Monochrome
  | Mode_Red_Blue_Monochrome => true
  end.

(** Lines 234-242: bind the view texture and give it new storage when
    the stored size is not the size of the view. *)
Definition prepareViewTexture (isGLES : bool) (v : Z)
    (viewWidth viewHeight : Z) : Cmd :=
  emit [glBindTexture v] >>>
  fun w =>
    if negb (_viewTexWidth w !!! Z.to_nat v =? viewWidth)
       || negb (_viewTexHeight w !!! Z.to_nat v =? viewHeight)
    then
      (emit [glTexImage2D v (if isGLES then GL_RGB10_A2 else GL_RGB16)
               viewWidth viewHeight] >>>
       modify (set_viewTexSize v viewWidth viewHeight)) w
    else skip w.

(** Lines 245-260: the Euler angles of the view rotation, when
    [_bino->assumeThreeSixtyMode()] holds.  The frustum and the
    quaternion are built from them by Qt and are not modelled. *)
Definition threeSixtyAngles (assumeThreeSixtyMode : bool) (w : Widget)
  : option (F32.float * F32.float) :=
  if assumeThreeSixtyMode then
    Some (F32.opp (F32.add (_threeSixtyVerticalAngleBase w)
                           (_threeSixtyVerticalAngleCurrent w)),
          F32.opp (F32.add (_threeSixtyHorizontalAngleBase w)
                           (_threeSixtyHorizontalAngleCurrent w)))
  else None.

(** Lines 202-264: one turn of the loop over the views. *)
Definition fillViewTexture (isGLES assumeThreeSixtyMode : bool)
    (stereoMode : StereoMode) (fg : FrameGeometry) (v : Z) : Cmd :=
  fun w =>
    if negb (needThisView stereoMode (_alternatingLastView w) v) then
      skip w
    else
      (prepareViewTexture isGLES v (viewWidth fg) (viewHeight fg) >>>
       (fun w' =>
          emit [binoRender (threeSixtyAngles assumeThreeSixtyMode w')
                  v (viewWidth fg) (viewHeight fg)] w') >>>
       emit [glBindTexture v; glGenerateMipmap v]) w.

(** Line 272: [_width / float(_height)]. *)
Definition screenAspectRatio (width height : Z) : F32.float :=
  F32.div (F32.of_int width) (F32.of_int height).

(** Lines 270-276: the pair [(relWidth, relHeight)]. *)
Definition aspectFit (width height : Z) (frameDisplayAspectRatio : F32.float)
  : F32.float * F32.float :=
  let relWidth := F32.one in
  let relHeight := F32.one in
  if F32.ltb (screenAspectRatio width height) frameDisplayAspectRatio then
    (relWidth, F32.div (screenAspectRatio width height) frameDisplayAspectRatio)
  else
    (F32.div frameDisplayAspectRatio (screenAspectRatio width height),
     relHeight).

(** Lines 297-298 and 307-308: the local [stereoMode] at the draw. *)
Definition resolveAlternating (stereoMode : StereoMode)
    (alternatingLastView : Z) : StereoMode :=
  if bool_decide (stereoMode = Mode_Alternating) then
    (if alternatingLastView =? 0 then Mode_Right else Mode_Left)
  else stereoMode.

(** Lines 287-311. *)
Definition drawViews (stereoMode : StereoMode) : Cmd :=
  fun w =>
    if _openGLStereo w then
      if bool_decide (stereoMode = Mode_OpenGL_Stereo) then
        emit [glDrawBuffer GL_BACK_LEFT;
              setStereoModeUniform Mode_Left;
              glDrawElements;
              glDrawBuffer GL_BACK_RIGHT;
              setStereoModeUniform Mode_Right;
              glDrawElements] w
      else
        emit [setStereoModeUniform
                (resolveAlternating stereoMode (_alternatingLastView w));
              glDrawBuffer GL_BACK_LEFT;
              glDrawElements;
              glDrawBuffer GL_BACK_RIGHT;
              glDrawElements] w
    else
      emit [setStereoModeUniform
              (resolveAlternating stereoMode (_alternatingLastView w));
            glDrawElements] w.

(** Line 315: [(_alternatingLastView == 0 ? 1 : 0)]. *)
Definition flip (alternatingLastView : Z) : Z :=
  if alternatingLastView =? 0 then 1 else 0.

(** Lines 313-317. *)
Definition updateAlternating (fg : FrameGeometry) : Cmd :=
  fun w =>
    if bool_decide (_stereoMode w = Mode_Alternating) && frameIsStereo fg then
      (modify (set_alternatingLastView (flip (_alternatingLastView w))) >>>
       emit [update]) w
    else skip w.

(** Lines 202-311: filling the view textures and putting them on screen,
    with the local [stereoMode]. *)
Definition paintGL_draw (isGLES assumeThreeSixtyMode : bool)
    (fg : FrameGeometry) (stereoMode : StereoMode) : Cmd :=
  for_each [0; 1]
    (fillViewTexture isGLES assumeThreeSixtyMode stereoMode fg) >>>
  (fun w' =>
     let '(relWidth, relHeight) :=
       aspectFit (_width w') (_height w') (frameDisplayAspectRatio fg) in
     emit [glViewport (_width w') (_height w');
           setRelative relWidth relHeight;
           glBindTexture 0;
           glBindTexture 1] w') >>>
  drawViews stereoMode.

(** [isGLES] is [QOpenGLContext::currentContext()->isOpenGLES()], [fg]
    what [_bino->preRenderProcess] reports for this frame. *)
Definition paintGL (isGLES assumeThreeSixtyMode : bool) (fg : FrameGeometry)
  : Cmd :=
  fun w =>
    let stereoMode := adjustStereoMode w fg in
    (paintGL_draw isGLES assumeThreeSixtyMode fg stereoMode >>>
     updateAlternating fg) w.

(** ** Pointer events *)

Definition f180 : F32.float := F32.of_int 180.
Definition f90 : F32.float := F32.of_int 90.

(** [position] is [e->position()]. *)
Definition mousePressEvent (position : QPointF) (w : Widget) : Widget :=
  set_threeSixty true position
    (_threeSixtyHorizontalAngleBase w) (_threeSixtyVerticalAngleBase w)
    F32.zero F32.zero w.

Definition mouseReleaseEvent (w : Widget) : Widget :=
  set_threeSixty false (_threeSixtyMovementStart w)
    (F32.add (_threeSixtyHorizontalAngleBase w)
             (_threeSixtyHorizontalAngleCurrent w))
    (F32.add (_threeSixtyVerticalAngleBase w)
             (_threeSixtyVerticalAngleCurrent w))
    F32.zero F32.zero w.

(** The locals [dx], [xf], [dy], [yf] of [mouseMoveEvent]. *)
Definition move_dx (position : QPointF) (w : Widget) : F32.float :=
  F32.of_double (xp (QPointF_sub position (_threeSixtyMovementStart w))).
Definition move_xf (position : QPointF) (w : Widget) : F32.float :=
  F32.div (move_dx position w) (F32.of_int (_width w)).
Definition move_dy (position : QPointF) (w : Widget) : F32.float :=
  F32.of_double (yp (QPointF_sub position (_threeSixtyMovementStart w))).
Definition move_yf (position : QPointF) (w : Widget) : F32.float :=
  F32.div (move_dy position w) (F32.of_int (_height w)).

Definition mouseMoveEvent (position : QPointF) : Cmd :=
  fun w =>
    if _inThreeSixtyMovement w then
      (modify (set_threeSixty (_inThreeSixtyMovement w)
                 (_threeSixtyMovementStart w)
                 (_threeSixtyHorizontalAngleBase w)
                 (_threeSixtyVerticalAngleBase w)
                 (F32.mul (F32.opp (move_xf position w)) f180)
                 (F32.mul (F32.opp (move_yf position w)) f90)) >>>
       emit [update]) w
    else skip w.

Definition mediaChanged (w : Widget) : Widget :=
  set_threeSixty false (_threeSixtyMovementStart w)
    F32.zero F32.zero F32.zero F32.zero w.

(** ** The constructor

    Lines 46-58.  The members that the constructor leaves unset
    ([_width], [_height], the names and the sizes of the view textures,
    the name of the vertex array) hold 0 here until [resizeGL] and
    [initializeGL] assign them; the shader program is constructed
    empty.  [defaultFormatStereo] is
    [QSurfaceFormat::defaultFormat().stereo()]. *)
Definition Widget_new (stereoMode : StereoMode) (defaultFormatStereo : bool)
  : Widget :=
  {| _stereoMode := stereoMode;
     _openGLStereo := defaultFormatStereo;
     _alternatingLastView := 1;
     _width := 0;
     _height := 0;
     _viewTex := [0; 0];
     _viewTexWidth := [0; 0];
     _viewTexHeight := [0; 0];
     _quadVao := 0;
     _prg := {| shaders := []; linkCalled := false |};
     _inThreeSixtyMovement := false;
     _threeSixtyMovementStart := {| xp := S754_zero false;
                                    yp := S754_zero false |};
     _threeSixtyHorizontalAngleBase := F32.zero;
     _threeSixtyVerticalAngleBase := F32.zero;
     _threeSixtyHorizontalAngleCurrent := F32.zero;
     _threeSixtyVerticalAngleCurrent := F32.zero |}.

(** A pointer position in whole pixels. *)
Definition pixel (x y : Z) : QPointF :=
  {| xp := F64.of_int x; yp := F64.of_int y |}.

(** ** Notions for the arithmetic of binary32

    [SpecFloat] gives the operations; what follows names the parts of
    its rounding that the properties of the aspect ratio speak about. *)

(** The exponent of the binary32 format for a mantissa [m] at exponent
    [e]. *)
Definition cexp32 (m e : Z) : Z := fexp F32.prec F32.emax (Zdigits2 m + e).

(** The result of [binary_round_aux] for the sign [s], from the rounded
    mantissa [m2] at the exponent [e1]: one more shift when the mantissa
    has reached [2 ^ 24], then the test for overflow. *)
Definition finish32 (s : bool) (m2 e1 : Z) : spec_float :=
  if m2 =? 0 then S754_zero s
  else if m2 =? 2 ^ 24 then
    (if e1 + 1 <=? 104 then S754_finite s (2 ^ 23) (e1 + 1)
     else S754_infinity s)
  else if e1 <=? 104 then S754_finite s (Z.to_pos m2) e1
  else S754_infinity s.

(** The exponent and the integer quotient from which [SFdiv] rounds. *)
Definition div_e32 (mx : positive) (ex : Z) (my : positive) (ey : Z) : Z :=
  Z.min (fexp F32.prec F32.emax
           (Zdigits2 (Z.pos mx) + ex - (Zdigits2 (Z.pos my) + ey)))
        (ex - ey).

Definition div_q32 (mx : positive) (ex : Z) (my : positive) (ey : Z) : Z :=
  Z.pos mx * 2 ^ (ex - ey - div_e32 mx ex my ey) / Z.pos my.

(** A finite, positive binary32 number in canonical form. *)
Definition pos_finite32 (x : F32.float) : bool :=
  match x with
  | S754_finite false m e => bounded F32.prec F32.emax m e
  | _ => false
  end.

Definition is_nan (x : F32.float) : bool :=
  match x with S754_nan => true | _ => false end.

(** Exactly one of the two factors is below one. *)
Definition one_factor_below_one (rel : F32.float * F32.float) : bool :=
  xorb (F32.ltb (fst rel) F32.one) (F32.ltb (snd rel) F32.one).

(** ** What a command leaves alone *)

(** [c] never changes the member read by [f]. *)
Definition keeps {A} (f : Widget -> A) (c : Cmd) : Prop :=
  forall w, f (fst (c w)) = f w.

(** The whole gesture of a drag: press at [p], move to [q], release. *)
Definition pressMoveRelease (p q : QPointF) (w : Widget) : Widget :=
  mouseReleaseEvent (fst (mouseMoveEvent q (mousePressEvent p w))).

(** ** Reading a trace *)

(** The views that the player was asked to render, in order. *)
Definition renderedViews (t : list Call) : list Z :=
  omap (fun c => match c with binoRender _ v _ _ => Some v | _ => None end) t.

(** The views whose texture got new storage, in order. *)
Definition allocatedViews (t : list Call) : list Z :=
  omap (fun c => match c with glTexImage2D v _ _ _ => Some v | _ => None end) t.

(** The values given to the uniform [stereoMode], in order. *)
Definition drawnModes (t : list Call) : list StereoMode :=
  omap (fun c => match c with setStereoModeUniform m => Some m | _ => None end)
       t.

(** The number of calls of [update()]. *)
Definition updates (t : list Call) : nat :=
  length (omap (fun c => match c with update => Some tt | _ => None end) t).

(** The number of calls of [glDrawElements]. *)
Definition draws (t : list Call) : nat :=
  length (omap (fun c => match c with glDrawElements => Some tt | _ => None end)
            t).

(** The stored size of the texture of view [v] differs from the size of
    the views of the frame (line 235). *)
Definition sizeDiffers (fg : FrameGeometry) (v : Z) (w : Widget) : bool :=
  negb (_viewTexWidth w !!! Z.to_nat v =? viewWidth fg)
  || negb (_viewTexHeight w !!! Z.to_nat v =? viewHeight fg).

(** ** The widget in its event loop

    The calls that the toolkit and the application make on a widget
    that has passed [initializeGL]. *)
Inductive Event :=
  | EvSetStereoMode (mode : StereoMode)
  | EvResize (width height : Z)
  | EvPaint (isGLES assumeThreeSixtyMode : bool) (fg : FrameGeometry)
  | EvMousePress (position : QPointF)
  | EvMouseMove (position : QPointF)
  | EvMouseRelease
  | EvMediaChanged.

Definition handle (e : Event) : Cmd :=
  match e with
  | EvSetStereoMode mode => modify (setStereoMode mode)
  | EvResize width height => modify (resizeGL width height)
  | EvPaint isGLES assumeThreeSixtyMode fg =>
      paintGL isGLES assumeThreeSixtyMode fg
  | EvMousePress position => modify (mousePressEvent position)
  | EvMouseMove position => mouseMoveEvent position
  | EvMouseRelease => modify mouseReleaseEvent
  | EvMediaChanged => modify mediaChanged
  end.

Fixpoint run (es : list Event) : Cmd :=
  match es with
  | [] => skip
  | e :: es' => handle e >>> run es'
  end.

(** What holds of the members between two calls. *)
Definition consistent (w : Widget) : Prop :=
  (_alternatingLastView w = 0 \/ _alternatingLastView w = 1)
  /\ length (_viewTexWidth w) = 2%nat
  /\ length (_viewTexHeight w) = 2%nat
  /\ (_inThreeSixtyMovement w = false ->
      _threeSixtyHorizontalAngleCurrent w = F32.zero
      /\ _threeSixtyVerticalAngleCurrent w = F32.zero).

(** Two floats that are the same number: equal, or both a zero. *)
Definition sameNumber (x y : F32.float) : Prop :=
  x = y \/ (exists s s', x = S754_zero s /\ y = S754_zero s').

(** A coordinate that is a number. *)
Definition is_finite64 (x : F64.float) : bool :=
  match x with
  | S754_zero _ | S754_finite _ _ _ => true
  | S754_infinity _ | S754_nan => false
  end.

(** The members that the pointer events read and write, with the size
    of the widget that scales a move. *)
Definition gestureState (w : Widget) :=
  (_inThreeSixtyMovement w, _threeSixtyMovementStart w,
   (_threeSixtyHorizontalAngleBase w, _threeSixtyVerticalAngleBase w),
   (_threeSixtyHorizontalAngleCurrent w, _threeSixtyVerticalAngleCurrent w),
   (_width w, _height w)).

(** The members that decide which views a frame needs, where it is
    drawn and which textures get new storage, with the size of the
    drawable. *)
Definition frameState (w : Widget) :=
  (_stereoMode w, _openGLStereo w, _alternatingLastView w,
   (_viewTexWidth w, _viewTexHeight w), (_width w, _height w)).

(** The events that can change the [gestureState]. *)
Definition movesView (e : Event) : bool :=
  match e with
  | EvPaint _ _ _ | EvSetStereoMode _ => false
  | _ => true
  end.

(** The pointer events and the change of media. *)
Definition isGesture (e : Event) : bool :=
  match e with
  | EvMousePress _ | EvMouseMove _ | EvMouseRelease | EvMediaChanged => true
  | EvSetStereoMode _ | EvResize _ _ | EvPaint _ _ _ => false
  end.

(** The events without the pointer events and the changes of media. *)
Definition withoutGestures (es : list Event) : list Event :=
  List.filter (fun e => negb (isGesture e)) es.

(** * Properties *)

(** ** Commands *)

Section Frames.
Context {A : Type} (f : Widget -> A).

Lemma keeps_emit cs : keeps f (emit cs).
Proof. intros w. reflexivity. Qed.

Lemma keeps_skip : keeps f skip.
Proof. intros w. reflexivity. Qed.

Lemma keeps_modify g : (forall w, f (g w) = f w) -> keeps f (modify g).
Proof. intros Hg w. apply Hg. Qed.

Lemma keeps_seq c1 c2 : keeps f c1 -> keeps f c2 -> keeps f (c1 >>> c2).
Proof.
  intros H1 H2 w. unfold seq.
  specialize (H1 w). destruct (c1 w) as [w1 t1]. simpl in H1.
  specialize (H2 w1). destruct (c2 w1) as [w2 t2]. simpl in *.
  congruence.
Qed.

Lemma keeps_for_each vs body :
  (forall v, keeps f (body v)) -> keeps f (for_each vs body).
Proof.
  intros Hb. induction vs as [|v vs IH]; simpl.
  - apply keeps_skip.
  - apply keeps_seq; [apply Hb | apply IH].
Qed.

End Frames.

(** ** The views that a frame needs *)

Lemma prepareViewTexture_keeps {A} (f : Widget -> A) isGLES v vw vh :
  (forall w, f (set_viewTexSize v vw vh w) = f w) ->
  keeps f (prepareViewTexture isGLES v vw vh).
Proof.
  intros Hf. unfold prepareViewTexture.
  apply keeps_seq; [apply keeps_emit |].
  intros w.
  destruct (negb (_viewTexWidth w !!! Z.to_nat v =? vw)
            || negb (_viewTexHeight w !!! Z.to_nat v =? vh)).
  - apply (keeps_seq f); [apply keeps_emit | apply keeps_modify, Hf].
  - reflexivity.
Qed.

Lemma fillViewTexture_keeps {A} (f : Widget -> A) isGLES a360 m fg v :
  (forall vw vh w, f (set_viewTexSize v vw vh w) = f w) ->
  keeps f (fillViewTexture isGLES a360 m fg v).
Proof.
  intros Hf w. unfold fillViewTexture.
  destruct (negb (needThisView m (_alternatingLastView w) v)).
  - reflexivity.
  - apply (keeps_seq f).
    + apply prepareViewTexture_keeps, Hf.
    + apply keeps_seq; [intros w'; reflexivity | apply keeps_emit].
Qed.

Lemma fillViewTextures_keeps {A} (f : Widget -> A) isGLES a360 m fg :
  (forall v vw vh w, f (set_viewTexSize v vw vh w) = f w) ->
  keeps f (for_each [0; 1] (fillViewTexture isGLES a360 m fg)).
Proof.
  intros Hf. apply keeps_for_each. intros v.
  apply fillViewTexture_keeps. intros vw vh w. apply Hf.
Qed.

Lemma drawViews_keeps {A} (f : Widget -> A) m : keeps f (drawViews m).
Proof.
  intros w. unfold drawViews.
  destruct (_openGLStereo w); [destruct (bool_decide _) |]; reflexivity.
Qed.

Lemma paintGL_draw_keeps {A} (f : Widget -> A) isGLES a360 fg m :
  (forall v vw vh w, f (set_viewTexSize v vw vh w) = f w) ->
  keeps f (paintGL_draw isGLES a360 fg m).
Proof.
  intros Hf. unfold paintGL_draw.
  apply keeps_seq; [apply fillViewTextures_keeps, Hf |].
  apply keeps_seq; [| apply drawViews_keeps].
  intros w. destruct (aspectFit _ _ _). reflexivity.
Qed.

Lemma paintGL_draw_alternatingLastView isGLES a360 fg m w :
  _alternatingLastView (fst (paintGL_draw isGLES a360 fg m w))
  = _alternatingLastView w.
Proof. now apply (paintGL_draw_keeps _alternatingLastView). Qed.

Lemma paintGL_draw_stereoMode isGLES a360 fg m w :
  _stereoMode (fst (paintGL_draw isGLES a360 fg m w)) = _stereoMode w.
Proof. now apply (paintGL_draw_keeps _stereoMode). Qed.

Lemma adjustStereoMode_mono w fg :
  viewCount fg <> 2 -> adjustStereoMode w fg = Mode_Left.
Proof.
  intros H. unfold adjustStereoMode, frameIsStereo.
  destruct (Z.eqb_spec (viewCount fg) 2); [contradiction | reflexivity].
Qed.

Lemma adjustStereoMode_stereo w fg :
  viewCount fg = 2 -> adjustStereoMode w fg = _stereoMode w.
Proof.
  intros H. unfold adjustStereoMode, frameIsStereo. now rewrite H.
Qed.

(** A view that is not needed is neither allocated nor rendered. *)
Lemma fillViewTexture_not_needed isGLES a360 m fg v w :
  needThisView m (_alternatingLastView w) v = false ->
  fillViewTexture isGLES a360 m fg v w = (w, []).
Proof. intros H. unfold fillViewTexture. now rewrite H. Qed.

(** In [Mode_Left] nothing is done for view 1: no storage is allocated
    for its texture and the player is not asked to render it. *)
Lemma paintGL_draw_left_only (P : Call -> bool) isGLES a360 fg w :
  P = is_binoRender_of 1 \/ P = is_glTexImage2D_of 1 ->
  existsb P (snd (paintGL_draw isGLES a360 fg Mode_Left w)) = false.
Proof.
  intros HP. unfold paintGL_draw. simpl for_each. unfold seq.
  assert (H0 : existsb P
                 (snd (fillViewTexture isGLES a360 Mode_Left fg 0 w)) = false).
  { unfold fillViewTexture, prepareViewTexture, seq, emit, skip, modify.
    simpl.
    destruct (negb _ || negb _); destruct HP; subst P; reflexivity. }
  destruct (fillViewTexture isGLES a360 Mode_Left fg 0 w) as [w1 t1].
  simpl in H0.
  change (fillViewTexture isGLES a360 Mode_Left fg 1 w1) with (w1, @nil Call).
  unfold skip, emit.
  destruct (aspectFit _ _ _) as [rw rh].
  unfold drawViews, emit.
  destruct (_openGLStereo w1); simpl; rewrite !existsb_app, H0;
    destruct HP; subst P; reflexivity.
Qed.

Lemma updateAlternating_trace fg w :
  snd (updateAlternating fg w) = [] \/ snd (updateAlternating fg w) = [update].
Proof.
  unfold updateAlternating.
  destruct (bool_decide _ && frameIsStereo fg); [right | left]; reflexivity.
Qed.

Lemma paintGL_trace isGLES a360 fg w :
  exists t,
    (t = [] \/ t = [update]) /\
    snd (paintGL isGLES a360 fg w)
    = snd (paintGL_draw isGLES a360 fg (adjustStereoMode w fg) w) ++ t.
Proof.
  unfold paintGL, seq.
  destruct (paintGL_draw _ _ _ _ w) as [w1 t1].
  pose proof (updateAlternating_trace fg w1) as Ht.
  destruct (updateAlternating fg w1) as [w2 t2]. simpl in *.
  exists t2. split; [exact Ht | reflexivity].
Qed.

(** C1: when the frame has a single view, whatever mode was requested,
    the mode used for the frame is [Mode_Left], the left view is needed
    and the right view is not; [paintGL] then neither allocates storage
    for the right view texture nor asks the player to render the right
    view. *)
Theorem mono_frame_uses_left_only isGLES a360 fg w :
  viewCount fg = 1 ->
  adjustStereoMode w fg = Mode_Left
  /\ needThisView (adjustStereoMode w fg) (_alternatingLastView w) 0 = true
  /\ needThisView (adjustStereoMode w fg) (_alternatingLastView w) 1 = false
  /\ existsb (is_binoRender_of 1) (snd (paintGL isGLES a360 fg w)) = false
  /\ existsb (is_glTexImage2D_of 1) (snd (paintGL isGLES a360 fg w)) = false.
Proof.
  intros Hmono.
  assert (Hm : adjustStereoMode w fg = Mode_Left)
    by (apply adjustStereoMode_mono; lia).
  rewrite Hm. repeat split.
  - destruct (paintGL_trace isGLES a360 fg w) as (t & Ht & ->).
    rewrite Hm, existsb_app, paintGL_draw_left_only by now left.
    destruct Ht; subst t; reflexivity.
  - destruct (paintGL_trace isGLES a360 fg w) as (t & Ht & ->).
    rewrite Hm, existsb_app, paintGL_draw_left_only by now right.
    destruct Ht; subst t; reflexivity.
Qed.

Lemma mono_frame_uses_left_only_witness :
  existsb (is_binoRender_of 1)
    (snd (paintGL false false
            {| viewCount := 1; viewWidth := 1920; viewHeight := 1080;
               frameDisplayAspectRatio := F32.of_int 2;
               threeSixty := false |}
            (resizeGL 1920 1080 (Widget_new Mode_Red_Cyan_Dubois false))))
  = false.
Proof.
  apply (mono_frame_uses_left_only false false
           {| viewCount := 1; viewWidth := 1920; viewHeight := 1080;
              frameDisplayAspectRatio := F32.of_int 2;
              threeSixty := false |}
           (resizeGL 1920 1080 (Widget_new Mode_Red_Cyan_Dubois false))).
  reflexivity.
Defined.

(** C2 as stated fails: with [Mode_Left] requested (a mode other than
    [Mode_Alternating]) and a stereo frame, the right view is not
    needed. *)
Lemma left_mode_skips_right_view :
  ~ (forall w fg,
       _stereoMode w <> Mode_Alternating -> viewCount fg = 2 ->
       needThisView (adjustStereoMode w fg) (_alternatingLastView w) 0 = true
       /\ needThisView (adjustStereoMode w fg) (_alternatingLastView w) 1
          = true).
Proof.
  intros H.
  destruct (H (Widget_new Mode_Left false)
              {| viewCount := 2; viewWidth := 1920; viewHeight := 1080;
                 frameDisplayAspectRatio := F32.of_int 2;
                 threeSixty := false |}) as [_ Hright];
    [discriminate | reflexivity | discriminate Hright].
Qed.

(** C2, amended: for every requested mode other than [Mode_Left],
    [Mode_Right] and [Mode_Alternating], a stereo frame needs both the
    left and the right view. *)
Theorem stereo_frame_needs_both w fg :
  _stereoMode w <> Mode_Left ->
  _stereoMode w <> Mode_Right ->
  _stereoMode w <> Mode_Alternating ->
  viewCount fg = 2 ->
  needThisView (adjustStereoMode w fg) (_alternatingLastView w) 0 = true
  /\ needThisView (adjustStereoMode w fg) (_alternatingLastView w) 1 = true.
Proof.
  intros HL HR HA Hst. rewrite adjustStereoMode_stereo by exact Hst.
  destruct (_stereoMode w); try contradiction; split; reflexivity.
Qed.

Lemma stereo_frame_needs_both_witness :
  needThisView
    (adjustStereoMode (Widget_new Mode_OpenGL_Stereo true)
       {| viewCount := 2; viewWidth := 1920; viewHeight := 1080;
          frameDisplayAspectRatio := F32.of_int 2; threeSixty := false |})
    (_alternatingLastView (Widget_new Mode_OpenGL_Stereo true)) 0 = true
  /\ needThisView
    (adjustStereoMode (Widget_new Mode_OpenGL_Stereo true)
       {| viewCount := 2; viewWidth := 1920; viewHeight := 1080;
          frameDisplayAspectRatio := F32.of_int 2; threeSixty := false |})
    (_alternatingLastView (Widget_new Mode_OpenGL_Stereo true)) 1 = true.
Proof.
  apply (stereo_frame_needs_both (Widget_new Mode_OpenGL_Stereo true)
           {| viewCount := 2; viewWidth := 1920; viewHeight := 1080;
              frameDisplayAspectRatio := F32.of_int 2;
              threeSixty := false |});
    simpl; [discriminate | discriminate | discriminate | reflexivity].
Defined.

(** The requested modes that need a single view of a stereo frame. *)
Lemma stereo_frame_left_right w fg :
  viewCount fg = 2 ->
  (_stereoMode w = Mode_Left ->
   needThisView (adjustStereoMode w fg) (_alternatingLastView w) 0 = true
   /\ needThisView (adjustStereoMode w fg) (_alternatingLastView w) 1 = false)
  /\ (_stereoMode w = Mode_Right ->
   needThisView (adjustStereoMode w fg) (_alternatingLastView w) 0 = false
   /\ needThisView (adjustStereoMode w fg) (_alternatingLastView w) 1 = true).
Proof.
  intros Hst. rewrite adjustStereoMode_stereo by exact Hst.
  split; intros ->; split; reflexivity.
Qed.

(** C3: the loop over the views and the draw leave the parity
    [_alternatingLastView] as it is; a call of [paintGL] flips it (0
    becomes 1, anything else 0) when the requested mode is
    [Mode_Alternating] and the frame has two views, and leaves it
    unchanged in every other case. *)
Theorem alternating_parity_update isGLES a360 fg w :
  _alternatingLastView
    (fst (paintGL_draw isGLES a360 fg (adjustStereoMode w fg) w))
  = _alternatingLastView w
  /\ _alternatingLastView (fst (paintGL isGLES a360 fg w))
     = (if bool_decide (_stereoMode w = Mode_Alternating)
           && (viewCount fg =? 2)
        then flip (_alternatingLastView w)
        else _alternatingLastView w)
  /\ flip 0 = 1 /\ flip 1 = 0
  /\ (forall a, flip a <> a).
Proof.
  split; [apply paintGL_draw_alternatingLastView |].
  split.
  - unfold paintGL, seq.
    pose proof (paintGL_draw_alternatingLastView
                  isGLES a360 fg (adjustStereoMode w fg) w) as Ha.
    pose proof (paintGL_draw_stereoMode
                  isGLES a360 fg (adjustStereoMode w fg) w) as Hm.
    destruct (paintGL_draw _ _ _ _ w) as [w1 t1]. simpl in Ha, Hm.
    unfold updateAlternating, frameIsStereo. rewrite Hm.
    destruct (bool_decide (_stereoMode w = Mode_Alternating)
              && (viewCount fg =? 2)); simpl; congruence.
  - repeat split. intros a. unfold flip.
    destruct (Z.eqb_spec a 0); lia.
Qed.

(** C10: [paintGL] leaves the requested mode [_stereoMode] as it is, and
    so do the handlers of resize, pointer and media events; only
    [setStereoMode] assigns it. *)
Theorem paintGL_keeps_requested_mode isGLES a360 fg w :
  _stereoMode (fst (paintGL isGLES a360 fg w)) = _stereoMode w
  /\ (forall width height,
        _stereoMode (resizeGL width height w) = _stereoMode w)
  /\ (forall p, _stereoMode (mousePressEvent p w) = _stereoMode w)
  /\ (forall p, _stereoMode (fst (mouseMoveEvent p w)) = _stereoMode w)
  /\ _stereoMode (mouseReleaseEvent w) = _stereoMode w
  /\ _stereoMode (mediaChanged w) = _stereoMode w
  /\ (forall mode, _stereoMode (setStereoMode mode w) = mode).
Proof.
  split.
  - unfold paintGL, seq.
    pose proof (paintGL_draw_stereoMode
                  isGLES a360 fg (adjustStereoMode w fg) w) as Hm.
    destruct (paintGL_draw _ _ _ _ w) as [w1 t1]. simpl in Hm.
    unfold updateAlternating.
    destruct (bool_decide _ && frameIsStereo fg); simpl; exact Hm.
  - repeat split; try reflexivity.
    intros p. unfold mouseMoveEvent.
    destruct (_inThreeSixtyMovement w); reflexivity.
Qed.

(** ** The orientation of the 360 degree view *)

(** C6: in any state, also in the middle of a gesture, [mediaChanged]
    sets the four angles (base and current, horizontal and vertical) to
    zero and clears [_inThreeSixtyMovement]. *)
Theorem mediaChanged_resets_orientation w :
  _threeSixtyHorizontalAngleBase (mediaChanged w) = F32.zero
  /\ _threeSixtyVerticalAngleBase (mediaChanged w) = F32.zero
  /\ _threeSixtyHorizontalAngleCurrent (mediaChanged w) = F32.zero
  /\ _threeSixtyVerticalAngleCurrent (mediaChanged w) = F32.zero
  /\ _inThreeSixtyMovement (mediaChanged w) = false.
Proof. repeat split. Qed.

Lemma mediaChanged_mid_gesture p q w :
  _inThreeSixtyMovement (fst (mouseMoveEvent q (mousePressEvent p w))) = true
  /\ _inThreeSixtyMovement
       (mediaChanged (fst (mouseMoveEvent q (mousePressEvent p w)))) = false.
Proof. split; reflexivity. Qed.





(** The move leaves the base angles alone: they change at the release. *)
Lemma mouseMoveEvent_keeps_base q w :
  _threeSixtyHorizontalAngleBase (fst (mouseMoveEvent q w))
  = _threeSixtyHorizontalAngleBase w
  /\ _threeSixtyVerticalAngleBase (fst (mouseMoveEvent q w))
     = _threeSixtyVerticalAngleBase w.
Proof.
  unfold mouseMoveEvent. destruct (_inThreeSixtyMovement w); split; reflexivity.
Qed.

(** C9, at a drag that is longer than the widget is wide: in a 100 by
    100 widget, press at (0,0) and move to (250,0).  [mouseMoveEvent]
    computes the fraction [xf] = 2.5, which is not at most 1, and the
    current horizontal angle -450, which is below -180. *)
Theorem move_fraction_out_of_range :
  move_xf (pixel 250 0)
    (mousePressEvent (pixel 0 0)
       (resizeGL 100 100 (Widget_new Mode_Left false)))
  = F32.div (F32.of_int 5) (F32.of_int 2)
  /\ F32.leb
       (move_xf (pixel 250 0)
          (mousePressEvent (pixel 0 0)
             (resizeGL 100 100 (Widget_new Mode_Left false))))
       F32.one = false
  /\ _threeSixtyHorizontalAngleCurrent
       (fst (mouseMoveEvent (pixel 250 0)
               (mousePressEvent (pixel 0 0)
                  (resizeGL 100 100 (Widget_new Mode_Left false)))))
     = F32.of_int (-450)
  /\ F32.leb (F32.of_int (-180))
       (_threeSixtyHorizontalAngleCurrent
          (fst (mouseMoveEvent (pixel 250 0)
                  (mousePressEvent (pixel 0 0)
                     (resizeGL 100 100 (Widget_new Mode_Left false))))))
     = false.
Proof. vm_compute. repeat split. Qed.

(** ** The view textures *)

Lemma prepareViewTexture_eq isGLES v vw vh w :
  prepareViewTexture isGLES v vw vh w
  = if negb (_viewTexWidth w !!! Z.to_nat v =? vw)
       || negb (_viewTexHeight w !!! Z.to_nat v =? vh)
    then (set_viewTexSize v vw vh w,
          [glBindTexture v;
           glTexImage2D v (if isGLES then GL_RGB10_A2 else GL_RGB16) vw vh])
    else (w, [glBindTexture v]).
Proof.
  unfold prepareViewTexture, seq, emit, skip, modify. simpl.
  destruct (negb _ || negb _); reflexivity.
Qed.

(** C7: [prepareViewTexture] gives the texture of view [v] new storage
    (one [glTexImage2D]) and stores the new size exactly when the
    requested width or height is not the stored one; after the call the
    stored size is the requested one, so a second call with the same
    size allocates nothing and changes nothing. *)
Theorem prepareViewTexture_idempotent isGLES v vw vh w :
  (Z.to_nat v < length (_viewTexWidth w))%nat ->
  (Z.to_nat v < length (_viewTexHeight w))%nat ->
  existsb is_glTexImage2D (snd (prepareViewTexture isGLES v vw vh w))
  = negb (_viewTexWidth w !!! Z.to_nat v =? vw)
    || negb (_viewTexHeight w !!! Z.to_nat v =? vh)
  /\ fst (prepareViewTexture isGLES v vw vh w)
     = (if negb (_viewTexWidth w !!! Z.to_nat v =? vw)
           || negb (_viewTexHeight w !!! Z.to_nat v =? vh)
        then set_viewTexSize v vw vh w else w)
  /\ _viewTexWidth (fst (prepareViewTexture isGLES v vw vh w))
       !!! Z.to_nat v = vw
  /\ _viewTexHeight (fst (prepareViewTexture isGLES v vw vh w))
       !!! Z.to_nat v = vh
  /\ existsb is_glTexImage2D
       (snd (prepareViewTexture isGLES v vw vh
               (fst (prepareViewTexture isGLES v vw vh w)))) = false
  /\ fst (prepareViewTexture isGLES v vw vh
            (fst (prepareViewTexture isGLES v vw vh w)))
     = fst (prepareViewTexture isGLES v vw vh w).
Proof.
  intros Hw Hh.
  assert (Hsize :
    _viewTexWidth (fst (prepareViewTexture isGLES v vw vh w))
      !!! Z.to_nat v = vw
    /\ _viewTexHeight (fst (prepareViewTexture isGLES v vw vh w))
      !!! Z.to_nat v = vh).
  { rewrite prepareViewTexture_eq.
    destruct (Z.eqb_spec (_viewTexWidth w !!! Z.to_nat v) vw) as [Ew | Ew];
      destruct (Z.eqb_spec (_viewTexHeight w !!! Z.to_nat v) vh) as [Eh | Eh];
      simpl; try (split; assumption);
      split; apply list_lookup_total_insert_eq; assumption. }
  destruct Hsize as [Hsw Hsh].
  assert (Hagain :
    prepareViewTexture isGLES v vw vh
      (fst (prepareViewTexture isGLES v vw vh w))
    = (fst (prepareViewTexture isGLES v vw vh w), [glBindTexture v])).
  { rewrite (prepareViewTexture_eq isGLES v vw vh (fst _)).
    rewrite Hsw, Hsh, !Z.eqb_refl. reflexivity. }
  repeat split; try assumption.
  - rewrite prepareViewTexture_eq.
    destruct (negb _ || negb _); reflexivity.
  - rewrite prepareViewTexture_eq.
    destruct (negb _ || negb _); reflexivity.
  - rewrite Hagain. reflexivity.
  - rewrite Hagain. reflexivity.
Qed.

Lemma prepareViewTexture_idempotent_witness :
  existsb is_glTexImage2D
    (snd (prepareViewTexture false 0 1920 1080
            (Widget_new Mode_Left false))) = true
  /\ existsb is_glTexImage2D
       (snd (prepareViewTexture false 0 1920 1080
               (fst (prepareViewTexture false 0 1920 1080
                       (Widget_new Mode_Left false))))) = false.
Proof.
  destruct (prepareViewTexture_idempotent false 0 1920 1080
              (Widget_new Mode_Left false)) as (H1 & _ & _ & _ & H2 & _);
    [simpl; lia | simpl; lia |].
  split; [rewrite H1; reflexivity | exact H2].
Defined.

(** ** Initialization *)

(** [initializeGL] ends the process exactly when the context is not
    valid, or its major version is below 3, or its minor version is
    below 2, or stereo is the default and the context has none. *)
Lemma initializeGL_exits defaultFormatStereo context w :
  exits (initializeGL defaultFormatStereo context w)
  = negb (isValid context
          && (3 <=? majorVersion (format context))
          && (2 <=? minorVersion (format context)))
    || (defaultFormatStereo && negb (stereo (format context))).
Proof.
  unfold initializeGL, contextIsOk.
  destruct (isValid context && _ && _); simpl; [| reflexivity].
  destruct (defaultFormatStereo && negb (stereo (format context)));
    reflexivity.
Qed.

(** Where the test agrees with the order of versions: below 3.2 the
    process ends, and so it does when stereo is the default and the
    context has none. *)
Lemma initializeGL_exits_below_3_2 defaultFormatStereo context w :
  majorVersion (format context) < 3
  \/ (majorVersion (format context) = 3
      /\ minorVersion (format context) < 2) ->
  exits (initializeGL defaultFormatStereo context w) = true.
Proof.
  intros H. rewrite initializeGL_exits.
  destruct (isValid context); [| reflexivity].
  destruct (Z.leb_spec 3 (majorVersion (format context)));
    destruct (Z.leb_spec 2 (minorVersion (format context)));
    try reflexivity; lia.
Qed.

Lemma initializeGL_exits_without_stereo context w :
  stereo (format context) = false ->
  exits (initializeGL true context w) = true.
Proof.
  intros H. rewrite initializeGL_exits, H. apply orb_true_r.
Qed.

(** A valid context passes when its major version is at least 3 and,
    by itself, its minor version at least 2. *)
Lemma initializeGL_returns defaultFormatStereo context w :
  isValid context = true ->
  3 <= majorVersion (format context) ->
  2 <= minorVersion (format context) ->
  (defaultFormatStereo = true -> stereo (format context) = true) ->
  exits (initializeGL defaultFormatStereo context w) = false.
Proof.
  intros Hv Hmaj Hmin Hst. rewrite initializeGL_exits, Hv.
  destruct (Z.leb_spec 3 (majorVersion (format context))); [| lia].
  destruct (Z.leb_spec 2 (minorVersion (format context))); [| lia].
  destruct defaultFormatStereo; [rewrite Hst by reflexivity |]; reflexivity.
Qed.

(** C8, at OpenGL 4.0 and 4.1: a valid context of version 4.0 or 4.1,
    with stereo not requested, makes [initializeGL] end the process
    with the diagnostic of insufficient capabilities; version 3.2 does
    not. *)
Theorem initializeGL_rejects_version_4_0 isGLES w :
  initializeGL false
    {| isValid := true;
       format := {| majorVersion := 4; minorVersion := 0; stereo := false |};
       isOpenGLES := isGLES |} w
  = Exit 1 "Insufficient OpenGL capabilities."
  /\ initializeGL false
    {| isValid := true;
       format := {| majorVersion := 4; minorVersion := 1; stereo := false |};
       isOpenGLES := isGLES |} w
  = Exit 1 "Insufficient OpenGL capabilities."
  /\ exits (initializeGL false
    {| isValid := true;
       format := {| majorVersion := 3; minorVersion := 2; stereo := false |};
       isOpenGLES := isGLES |} w) = false.
Proof. repeat split. Qed.

(** ** Rounding to binary32 *)

Lemma digits2_pos_size p : digits2_pos p = Pos.size p.
Proof. induction p; simpl; congruence. Qed.

Lemma Zdigits2_log2 m : 0 < m -> Zdigits2 m = Z.log2 m + 1.
Proof.
  destruct m as [|p|p]; try lia. intros _. simpl.
  rewrite digits2_pos_size. destruct p; simpl; lia.
Qed.

Lemma Zdigits2_nonneg m : 0 <= Zdigits2 m.
Proof. destruct m; simpl; lia. Qed.

Lemma Zdigits2_pos m : 0 < m -> 0 < Zdigits2 m.
Proof. destruct m; simpl; lia. Qed.

Lemma Zdigits2_bounds m :
  0 < m -> 2 ^ (Zdigits2 m - 1) <= m < 2 ^ Zdigits2 m.
Proof.
  intros Hm. rewrite Zdigits2_log2 by exact Hm.
  replace (Z.log2 m + 1 - 1) with (Z.log2 m) by lia.
  apply Z.log2_spec, Hm.
Qed.

Lemma Zdigits2_le m d : 0 < m -> 0 <= d -> (m < 2 ^ d <-> Zdigits2 m <= d).
Proof.
  intros Hm Hd. rewrite Zdigits2_log2 by exact Hm.
  rewrite Z.log2_lt_pow2 by exact Hm. lia.
Qed.

Lemma Zdigits2_ge m d : 0 < m -> 0 < d -> (2 ^ (d - 1) <= m <-> d <= Zdigits2 m).
Proof.
  intros Hm Hd. rewrite Zdigits2_log2 by exact Hm.
  rewrite Z.log2_le_pow2 by exact Hm. lia.
Qed.

Lemma Zdigits2_div_pow2 m n :
  0 < m -> 0 <= n < Zdigits2 m ->
  0 < m / 2 ^ n /\ Zdigits2 (m / 2 ^ n) = Zdigits2 m - n.
Proof.
  intros Hm Hn.
  pose proof (Zdigits2_bounds m Hm) as [Hlo Hhi].
  assert (H2n : 0 < 2 ^ n) by (apply Z.pow_pos_nonneg; lia).
  assert (Hq : 2 ^ (Zdigits2 m - n - 1) <= m / 2 ^ n < 2 ^ (Zdigits2 m - n)).
  { split.
    - apply Z.div_le_lower_bound; [exact H2n |].
      rewrite <- Z.pow_add_r by lia.
      replace (n + (Zdigits2 m - n - 1)) with (Zdigits2 m - 1) by lia.
      exact Hlo.
    - apply Z.div_lt_upper_bound; [exact H2n |].
      rewrite <- Z.pow_add_r by lia.
      replace (n + (Zdigits2 m - n)) with (Zdigits2 m) by lia.
      exact Hhi. }
  assert (Hpos : 0 < m / 2 ^ n).
  { assert (0 < 2 ^ (Zdigits2 m - n - 1)) by (apply Z.pow_pos_nonneg; lia).
    lia. }
  split; [exact Hpos |].
  rewrite (Zdigits2_log2 (m / 2 ^ n)) by exact Hpos.
  rewrite (Z.log2_unique (m / 2 ^ n) (Zdigits2 m - n - 1)); [lia | lia |].
  replace (Z.succ (Zdigits2 m - n - 1)) with (Zdigits2 m - n) by lia.
  exact Hq.
Qed.

Lemma div_pow2_small m n : 0 <= m -> Zdigits2 m <= n -> m / 2 ^ n = 0.
Proof.
  intros Hm Hn. apply Z.div_small.
  destruct (Z.eq_dec m 0) as [-> | Hne].
  - split; [lia | apply Z.pow_pos_nonneg; simpl in Hn; lia].
  - pose proof (Zdigits2_bounds m ltac:(lia)) as [_ Hhi].
    split; [lia |].
    eapply Z.lt_le_trans; [exact Hhi |].
    apply Z.pow_le_mono_r; lia.
Qed.

(** [iter_pos] is plain iteration. *)
Lemma iter_pos_nat {A} (f : A -> A) p x :
  SpecFloat.iter_pos f p x = Nat.iter (Pos.to_nat p) f x.
Proof.
  revert x. induction p as [p IH | p IH |]; intros x;
    cbn [SpecFloat.iter_pos].
  - rewrite !IH, Pos2Nat.inj_xI.
    rewrite <- Nat.iter_add, <- Nat.iter_succ_r. f_equal. lia.
  - rewrite !IH, Pos2Nat.inj_xO.
    rewrite <- Nat.iter_add. f_equal. lia.
  - reflexivity.
Qed.

Lemma shr_1_spec mrs :
  0 <= shr_m mrs ->
  shr_m (shr_1 mrs) = shr_m mrs / 2 /\ shr_r (shr_1 mrs) = Z.odd (shr_m mrs).
Proof.
  destruct mrs as [m r s]. simpl. intros Hm.
  destruct m as [|p|p]; [now split | | lia].
  destruct p as [p | p |]; cbn [shr_m shr_r].
  - split; [| reflexivity].
    apply (Z.div_unique _ 2 _ 1); lia.
  - split; [| reflexivity].
    apply (Z.div_unique _ 2 _ 0); lia.
  - now split.
Qed.

Lemma iter_shr_1_spec (n : nat) mrs :
  0 <= shr_m mrs ->
  shr_m (Nat.iter (S n) shr_1 mrs) = shr_m mrs / 2 ^ Z.of_nat (S n)
  /\ shr_r (Nat.iter (S n) shr_1 mrs) = Z.odd (shr_m mrs / 2 ^ Z.of_nat n).
Proof.
  intros Hm. induction n as [|n [IHm IHr]].
  - simpl Nat.iter. destruct (shr_1_spec mrs Hm) as [H1 H2].
    rewrite H1, H2. simpl. rewrite Z.div_1_r. split; reflexivity.
  - assert (Hn : 0 <= shr_m (Nat.iter (S n) shr_1 mrs)).
    { rewrite IHm. apply Z.div_pos; [exact Hm |].
      apply Z.pow_pos_nonneg; lia. }
    change (Nat.iter (S (S n)) shr_1 mrs)
      with (shr_1 (Nat.iter (S n) shr_1 mrs)).
    destruct (shr_1_spec _ Hn) as [H1 H2].
    rewrite H1, H2, IHm. split; [| reflexivity].
    rewrite Z.div_div by (try apply Z.pow_pos_nonneg; lia).
    f_equal. rewrite (Nat2Z.inj_succ (S n)), Z.pow_succ_r by lia. lia.
Qed.

Ltac f32_consts :=
  change F32.prec with 24 in *; change F32.emax with 128 in *.

Lemma fexp32_eq e : fexp 24 128 e = Z.max (e - 24) (-149).
Proof. reflexivity. Qed.

Lemma shr_spec mrs e n :
  0 <= shr_m mrs ->
  (n <= 0 -> shr mrs e n = (mrs, e))
  /\ (0 < n ->
      exists mrs', shr mrs e n = (mrs', e + n)
        /\ shr_m mrs' = shr_m mrs / 2 ^ n
        /\ shr_r mrs' = Z.odd (shr_m mrs / 2 ^ (n - 1))).
Proof.
  intros Hm. split; intros Hn.
  - destruct n; try lia; reflexivity.
  - destruct n as [|p|p]; try lia. unfold shr.
    eexists. split; [reflexivity |].
    rewrite iter_pos_nat.
    destruct (Pos2Nat.is_succ p) as [k Hk]. rewrite Hk.
    destruct (iter_shr_1_spec k mrs Hm) as [H1 H2].
    rewrite H1, H2.
    replace (Z.pos p) with (Z.of_nat (S k)) by lia.
    replace (Z.of_nat (S k) - 1) with (Z.of_nat k) by lia.
    split; reflexivity.
Qed.

Lemma round_nearest_even_bounds mrs :
  round_nearest_even (shr_m mrs) (loc_of_shr_record mrs) = shr_m mrs
  \/ (round_nearest_even (shr_m mrs) (loc_of_shr_record mrs) = shr_m mrs + 1
      /\ shr_r mrs = true).
Proof.
  destruct mrs as [m [|] [|]]; simpl; auto.
  destruct (Z.even m); auto.
Qed.

(** An odd bit at position [n - 1] puts the number in the upper half
    of its interval of length [2 ^ n]. *)
Lemma odd_div_pow2 m n :
  0 <= m -> 0 < n -> Z.odd (m / 2 ^ (n - 1)) = true ->
  (2 * (m / 2 ^ n) + 1) * 2 ^ n <= 2 * m.
Proof.
  intros Hm Hn Hodd.
  assert (Hp : 0 < 2 ^ (n - 1)) by (apply Z.pow_pos_nonneg; lia).
  assert (H2n : 2 ^ n = 2 ^ (n - 1) * 2).
  { replace n with (n - 1 + 1) at 1 by lia.
    rewrite Z.pow_add_r by lia. reflexivity. }
  rewrite H2n, <- Z.div_div by lia.
  set (a := m / 2 ^ (n - 1)) in *.
  assert (Ha : a = 2 * (a / 2) + 1).
  { rewrite (Z.div_mod a 2) at 1 by lia.
    rewrite Zmod_odd, Hodd. reflexivity. }
  assert (Hma : 2 ^ (n - 1) * a <= m)
    by (apply Z.mul_div_le; exact Hp).
  nia.
Qed.

Lemma cexp32_eq m e : cexp32 m e = Z.max (Zdigits2 m + e - 24) (-149).
Proof. reflexivity. Qed.

Lemma shr_record_of_loc_m m l : shr_m (shr_record_of_loc m l) = m.
Proof. destruct l as [|[]]; reflexivity. Qed.

Lemma shr_record_of_loc_r m l :
  shr_r (shr_record_of_loc m l) = true ->
  l = loc_Inexact Eq \/ l = loc_Inexact Gt.
Proof. destruct l as [|[]]; simpl; intros H; try discriminate H; auto. Qed.

Lemma Zdigits2_succ m :
  0 < m -> Zdigits2 m <= Zdigits2 (m + 1) <= Zdigits2 m + 1.
Proof.
  intros Hm.
  pose proof (Zdigits2_bounds m Hm) as [Hlo Hhi].
  pose proof (Zdigits2_pos m Hm) as Hd.
  split.
  - apply Zdigits2_ge; lia.
  - apply Zdigits2_le; [lia | lia |].
    rewrite Z.pow_add_r, Z.pow_1_r by lia. lia.
Qed.

(** The second normalization of [binary_round_aux], after rounding. *)
Lemma shr_fexp_rounded s M e1 :
  -149 <= e1 -> 0 <= M <= 2 ^ 24 ->
  (let '(mrs, e2) := shr_fexp 24 128 M e1 loc_Exact in
   match shr_m mrs with
   | 0 => S754_zero s
   | Z.pos m => if e2 <=? 128 - 24 then S754_finite s m e2
                else S754_infinity s
   | Z.neg _ => S754_nan
   end) = finish32 s M e1.
Proof.
  intros He HM. unfold shr_fexp, finish32. rewrite fexp32_eq.
  destruct (Z.eqb_spec M 0) as [-> | H0].
  { simpl Zdigits2.
    destruct (shr_spec (shr_record_of_loc 0 loc_Exact) e1
                (Z.max (0 + e1 - 24) (-149) - e1)) as [Hs _]; [simpl; lia |].
    rewrite Hs by lia. reflexivity. }
  destruct (Z.eqb_spec M (2 ^ 24)) as [-> | H24].
  { change (Zdigits2 (2 ^ 24)) with 25.
    replace (Z.max (25 + e1 - 24) (-149) - e1) with 1 by lia.
    simpl. reflexivity. }
  assert (Hd : Zdigits2 M <= 24) by (apply Zdigits2_le; lia).
  destruct (shr_spec (shr_record_of_loc M loc_Exact) e1
              (Z.max (Zdigits2 M + e1 - 24) (-149) - e1)) as [Hs _];
    [simpl; lia |].
  rewrite Hs by lia. simpl shr_m.
  destruct M; try lia. reflexivity.
Qed.

Lemma finish32_valid s M e1 :
  -149 <= e1 -> 0 <= M <= 2 ^ 24 ->
  (M = 0 \/ M = 2 ^ 24 \/ cexp32 M e1 = e1) ->
  valid_binary 24 128 (finish32 s M e1) = true.
Proof.
  intros He HM Hc. unfold finish32.
  destruct (Z.eqb_spec M 0) as [-> | H0]; [reflexivity |].
  destruct (Z.eqb_spec M (2 ^ 24)) as [-> | H24].
  - destruct (Z.leb_spec (e1 + 1) 104); [| reflexivity].
    unfold valid_binary, bounded, canonical_mantissa.
    rewrite fexp32_eq.
    change (Z.pos (digits2_pos (2 ^ 23))) with 24.
    apply andb_true_intro. split; [apply Z.eqb_eq | apply Z.leb_le]; lia.
  - destruct Hc as [? | [? | Hc]]; try contradiction.
    destruct (Z.leb_spec e1 104); [| reflexivity].
    unfold valid_binary, bounded, canonical_mantissa.
    destruct M as [|p|p]; try lia. simpl Z.to_pos.
    unfold cexp32 in Hc. simpl Zdigits2 in Hc.
    change F32.prec with 24 in Hc. change F32.emax with 128 in Hc.
    rewrite Hc, Z.eqb_refl. apply Z.leb_le. lia.
Qed.

Lemma loc_of_shr_record_of_loc m l :
  loc_of_shr_record (shr_record_of_loc m l) = l.
Proof. destruct l as [|[]]; reflexivity. Qed.

(** The mantissa kept by the first normalization has at most 24 bits. *)
Lemma div_pow2_cexp32 m e :
  0 <= m -> e <= cexp32 m e -> 0 <= m / 2 ^ (cexp32 m e - e) < 2 ^ 24.
Proof.
  intros Hm He. rewrite cexp32_eq in *.
  set (n := Z.max (Zdigits2 m + e - 24) (-149) - e) in *.
  assert (Hn : 0 <= n) by lia.
  assert (H2n : 0 < 2 ^ n) by (apply Z.pow_pos_nonneg; lia).
  split; [apply Z.div_pos; lia |].
  apply Z.div_lt_upper_bound; [exact H2n |].
  destruct (Z.eq_dec m 0) as [-> | Hne]; [lia |].
  pose proof (Zdigits2_bounds m ltac:(lia)) as [_ Hhi].
  eapply Z.lt_le_trans; [exact Hhi |].
  rewrite <- Z.pow_add_r by lia.
  apply Z.pow_le_mono_r; lia.
Qed.

(** What [binary_round_aux] computes from a mantissa [m] that has at
    least the digits of its format: [m] loses its [cexp32 m e - e] low
    bits, goes up by one or not, and is normalized once more. *)
Lemma binary_round_aux_spec s m e l :
  0 <= m -> e <= cexp32 m e ->
  exists m2,
    0 <= m2 <= 2 ^ 24
    /\ (m2 = m / 2 ^ (cexp32 m e - e)
        \/ (m2 = m / 2 ^ (cexp32 m e - e) + 1
            /\ ((cexp32 m e = e
                 /\ (l = loc_Inexact Eq \/ l = loc_Inexact Gt))
                \/ (e < cexp32 m e
                    /\ (2 * (m / 2 ^ (cexp32 m e - e)) + 1)
                       * 2 ^ (cexp32 m e - e) <= 2 * m))))
    /\ binary_round_aux 24 128 s m e l = finish32 s m2 (cexp32 m e)
    /\ valid_binary 24 128 (finish32 s m2 (cexp32 m e)) = true.
Proof.
  intros Hm He.
  pose proof (div_pow2_cexp32 m e Hm He) as Hm1.
  set (e1 := cexp32 m e) in *.
  set (m1 := m / 2 ^ (e1 - e)) in *.
  assert (He1 : -149 <= e1) by (subst e1; rewrite cexp32_eq; lia).
  (* the first normalization *)
  assert (Hfirst : exists mrs,
    shr_fexp 24 128 m e l = (mrs, e1) /\ shr_m mrs = m1
    /\ (shr_r mrs = true ->
        (e1 = e /\ (l = loc_Inexact Eq \/ l = loc_Inexact Gt))
        \/ (e < e1 /\ (2 * m1 + 1) * 2 ^ (e1 - e) <= 2 * m))).
  { change (shr_fexp 24 128 m e l)
      with (shr (shr_record_of_loc m l) e (e1 - e)).
    destruct (shr_spec (shr_record_of_loc m l) e (e1 - e)) as [H0 Hpos];
      [rewrite shr_record_of_loc_m; exact Hm |].
    destruct (Z.eq_dec e1 e) as [Heq | Hne].
    - exists (shr_record_of_loc m l). rewrite H0 by lia.
      rewrite shr_record_of_loc_m. subst m1.
      replace (e1 - e) with 0 by lia. rewrite Z.pow_0_r, Z.div_1_r.
      repeat split; [congruence |].
      intros Hr. left. split; [exact Heq |].
      eapply shr_record_of_loc_r, Hr.
    - destruct Hpos as (mrs & Hs & Hsm & Hsr); [lia |].
      rewrite shr_record_of_loc_m in Hsm, Hsr.
      exists mrs. rewrite Hs. replace (e + (e1 - e)) with e1 by lia.
      repeat split; [exact Hsm |].
      intros Hr. right. split; [lia |].
      apply odd_div_pow2; [exact Hm | lia | congruence]. }
  destruct Hfirst as (mrs & Hshr & Hsm & Hsr).
  set (M := round_nearest_even (shr_m mrs) (loc_of_shr_record mrs)).
  assert (HM : M = m1 \/ (M = m1 + 1 /\ shr_r mrs = true)).
  { subst M. destruct (round_nearest_even_bounds mrs) as [H | [H Hr]];
      rewrite H, Hsm; auto. }
  assert (HMb : 0 <= M <= 2 ^ 24) by (destruct HM as [-> | [-> _]]; lia).
  exists M. split; [exact HMb |]. split.
  { destruct HM as [-> | [-> Hr]]; [now left | right].
    split; [reflexivity | apply Hsr, Hr]. }
  split.
  { unfold binary_round_aux. rewrite Hshr. fold M.
    apply shr_fexp_rounded; assumption. }
  apply finish32_valid; [exact He1 | exact HMb |].
  destruct (Z.eq_dec M 0) as [? | HM0]; [now left |].
  destruct (Z.eq_dec M (2 ^ 24)) as [? | HM24]; [right; now left |].
  right; right.
  assert (Hd : Zdigits2 M <= 24) by (apply Zdigits2_le; lia).
  assert (He1def : e1 = Z.max (Zdigits2 m + e - 24) (-149)) by reflexivity.
  rewrite cexp32_eq.
  destruct (Z.eq_dec m1 0) as [Hz | Hnz].
  - (* everything was shifted out: the result is the least subnormal *)
    assert (M = 1) by (destruct HM as [? | [? _]]; lia). subst M.
    change (Zdigits2 1) with 1.
    destruct (Z.eq_dec m 0) as [-> | Hmne].
    + simpl Zdigits2 in He1def. lia.
    + assert (Hsmall : Zdigits2 m <= e1 - e).
      { destruct (Z_lt_le_dec (e1 - e) (Zdigits2 m)) as [Hlt | Hge];
          [| exact Hge].
        destruct (Zdigits2_div_pow2 m (e1 - e)) as [Hpos _]; [lia | lia |].
        fold m1 in Hpos. lia. }
      lia.
  - assert (Hmpos : 0 < m).
    { destruct (Z.eq_dec m 0) as [-> | ?]; [| lia].
      subst m1. rewrite Z.div_0_l in Hnz; [lia |].
      apply Z.pow_nonzero; lia. }
    assert (Hlt : e1 - e < Zdigits2 m).
    { destruct (Z_lt_le_dec (e1 - e) (Zdigits2 m)) as [Hlt | Hge];
        [exact Hlt |].
      pose proof (div_pow2_small m (e1 - e) ltac:(lia) Hge). fold m1 in H.
      contradiction. }
    destruct (Zdigits2_div_pow2 m (e1 - e)) as [Hpos Hdm1]; [lia | lia |].
    fold m1 in Hpos, Hdm1.
    destruct HM as [-> | [-> _]]; [lia |].
    pose proof (Zdigits2_succ m1 Hpos). lia.
Qed.

Lemma div_e32_le mx ex my ey : div_e32 mx ex my ey <= ex - ey.
Proof. unfold div_e32. lia. Qed.

Lemma SFdiv_core_binary_eq mx ex my ey :
  SFdiv_core_binary 24 128 (Z.pos mx) ex (Z.pos my) ey
  = (div_q32 mx ex my ey, div_e32 mx ex my ey,
     new_location (Z.pos my)
       ((Z.pos mx * 2 ^ (ex - ey - div_e32 mx ex my ey)) mod Z.pos my)).
Proof.
  unfold SFdiv_core_binary, div_q32.
  change (Z.min (fexp 24 128
                   (Zdigits2 (Z.pos mx) + ex - (Zdigits2 (Z.pos my) + ey)))
                (ex - ey)) with (div_e32 mx ex my ey).
  pose proof (div_e32_le mx ex my ey) as Hle.
  set (s := ex - ey - div_e32 mx ex my ey) in *.
  assert (Hm : match s with
               | Z.pos _ => Z.shiftl (Z.pos mx) s
               | 0 => Z.pos mx
               | Z.neg _ => 0
               end = Z.pos mx * 2 ^ s).
  { destruct s as [|p|p] eqn:Hs; [lia | | lia].
    rewrite Z.shiftl_mul_pow2 by lia. reflexivity. }
  rewrite Hm. unfold Z.div, Z.modulo.
  destruct (Z.div_eucl (Z.pos mx * 2 ^ s) (Z.pos my)) as [q r].
  reflexivity.
Qed.

(** The quotient has the digits that its exponent asks for. *)
Lemma div_q32_digits mx ex my ey :
  Zdigits2 (Z.pos mx) + ex - (Zdigits2 (Z.pos my) + ey)
  <= Zdigits2 (div_q32 mx ex my ey) + div_e32 mx ex my ey.
Proof.
  pose proof (div_e32_le mx ex my ey) as Hle.
  unfold div_q32.
  set (e' := div_e32 mx ex my ey) in *.
  set (s := ex - ey - e').
  assert (Hs : 0 <= s) by (subst s; lia).
  set (dx := Zdigits2 (Z.pos mx)). set (dy := Zdigits2 (Z.pos my)).
  pose proof (Zdigits2_bounds (Z.pos mx) ltac:(lia)) as [Hxlo _].
  pose proof (Zdigits2_bounds (Z.pos my) ltac:(lia)) as [_ Hyhi].
  pose proof (Zdigits2_pos (Z.pos mx) ltac:(lia)) as Hdx.
  pose proof (Zdigits2_pos (Z.pos my) ltac:(lia)) as Hdy.
  fold dx in Hxlo, Hdx. fold dy in Hyhi, Hdy.
  set (q := Z.pos mx * 2 ^ s / Z.pos my).
  pose proof (Zdigits2_nonneg q) as Hq0.
  destruct (Z_le_gt_dec (dx + s - dy) 0) as [Hsmall | Hbig]; [lia |].
  assert (Hqlo : 2 ^ (dx + s - dy - 1) <= q).
  { subst q. apply Z.div_le_lower_bound; [lia |].
    apply Z.le_trans with (2 ^ dy * 2 ^ (dx + s - dy - 1)).
    - apply Z.mul_le_mono_nonneg_r; [apply Z.pow_nonneg; lia | lia].
    - rewrite <- Z.pow_add_r by lia.
      replace (dy + (dx + s - dy - 1)) with (dx - 1 + s) by lia.
      rewrite Z.pow_add_r by lia.
      apply Z.mul_le_mono_nonneg_r; [apply Z.pow_nonneg; lia | lia]. }
  assert (Hqpos : 0 < q).
  { assert (0 < 2 ^ (dx + s - dy - 1)) by (apply Z.pow_pos_nonneg; lia).
    lia. }
  assert (dx + s - dy <= Zdigits2 q) by (apply Zdigits2_ge; lia).
  lia.
Qed.

Lemma div_q32_nonneg mx ex my ey : 0 <= div_q32 mx ex my ey.
Proof.
  unfold div_q32. apply Z.div_pos; [| lia].
  apply Z.mul_nonneg_nonneg; [lia | apply Z.pow_nonneg; lia].
Qed.

Lemma div_e32_cexp32 mx ex my ey :
  div_e32 mx ex my ey <= cexp32 (div_q32 mx ex my ey) (div_e32 mx ex my ey).
Proof.
  pose proof (div_q32_digits mx ex my ey) as Hd.
  rewrite cexp32_eq. unfold div_e32 at 1. rewrite fexp32_eq. lia.
Qed.

Lemma new_location_upper d r :
  0 < d -> 0 <= r < d ->
  new_location d r = loc_Inexact Eq \/ new_location d r = loc_Inexact Gt ->
  d <= 2 * r.
Proof.
  intros Hd Hr. unfold new_location, new_location_even, new_location_odd.
  destruct (Z.even d); destruct (Z.eqb_spec r 0) as [-> | Hr0];
    intros [H | H]; try discriminate H.
  - injection H as H. apply Z.compare_eq in H. lia.
  - injection H as H. apply Z.compare_gt_iff in H. lia.
  - destruct (2 * r + 1 ?= d); discriminate H.
  - destruct (2 * r + 1 ?= d) eqn:Hc; try discriminate H.
    apply Z.compare_gt_iff in Hc. lia.
Qed.

(** [SFdiv] on two finite numbers: the quotient [q] loses its low bits
    and goes up by one only if the exact quotient is at least half way
    up. *)
Lemma SFdiv_finite_spec sx mx ex sy my ey :
  exists m2,
    0 <= m2 <= 2 ^ 24
    /\ (m2 = div_q32 mx ex my ey
             / 2 ^ (cexp32 (div_q32 mx ex my ey) (div_e32 mx ex my ey)
                    - div_e32 mx ex my ey)
        \/ (m2 = div_q32 mx ex my ey
                 / 2 ^ (cexp32 (div_q32 mx ex my ey) (div_e32 mx ex my ey)
                        - div_e32 mx ex my ey) + 1
            /\ (2 * m2 - 1)
               * 2 ^ (cexp32 (div_q32 mx ex my ey) (div_e32 mx ex my ey)
                      - div_e32 mx ex my ey)
               * Z.pos my
               <= 2 * (Z.pos mx * 2 ^ (ex - ey - div_e32 mx ex my ey))))
    /\ SFdiv 24 128 (S754_finite sx mx ex) (S754_finite sy my ey)
       = finish32 (xorb sx sy) m2
           (cexp32 (div_q32 mx ex my ey) (div_e32 mx ex my ey))
    /\ valid_binary 24 128
         (finish32 (xorb sx sy) m2
            (cexp32 (div_q32 mx ex my ey) (div_e32 mx ex my ey))) = true.
Proof.
  unfold SFdiv. rewrite SFdiv_core_binary_eq.
  pose proof (div_q32_nonneg mx ex my ey) as Hq.
  pose proof (div_e32_cexp32 mx ex my ey) as He.
  pose proof (div_e32_le mx ex my ey) as Hle.
  set (e' := div_e32 mx ex my ey) in *.
  set (a := Z.pos mx * 2 ^ (ex - ey - e')).
  assert (Hqa : div_q32 mx ex my ey = a / Z.pos my) by reflexivity.
  set (q := div_q32 mx ex my ey) in *.
  assert (Ha : a = Z.pos my * q + a mod Z.pos my)
    by (rewrite Hqa; apply Z.div_mod; lia).
  pose proof (Z.mod_pos_bound a (Z.pos my) ltac:(lia)) as Hr.
  destruct (binary_round_aux_spec (xorb sx sy) q e'
              (new_location (Z.pos my) (a mod Z.pos my)) Hq He)
    as (m2 & Hb & Hm2 & Heq & Hv).
  exists m2. split; [exact Hb |]. split; [| split; assumption].
  destruct Hm2 as [-> | [-> Hup]]; [now left | right].
  split; [reflexivity |].
  set (m1 := q / 2 ^ (cexp32 q e' - e')) in *.
  replace (2 * (m1 + 1) - 1) with (2 * m1 + 1) by lia.
  destruct Hup as [[Hce Hl] | [Hlt Hbits]].
  - apply new_location_upper in Hl; [| lia | exact Hr].
    assert (m1 = q).
    { subst m1. rewrite Hce, Z.sub_diag, Z.pow_0_r, Z.div_1_r. reflexivity. }
    rewrite Hce, Z.sub_diag, Z.pow_0_r. nia.
  - apply Z.le_trans with (2 * q * Z.pos my); [| nia].
    apply Z.mul_le_mono_nonneg_r; [lia | exact Hbits].
Qed.

Lemma bounded32_inv m e :
  bounded 24 128 m e = true ->
  Z.pos m < 2 ^ 24 /\ -149 <= e <= 104
  /\ (-149 < e -> 2 ^ 23 <= Z.pos m).
Proof.
  unfold bounded, canonical_mantissa. rewrite fexp32_eq.
  intros H. apply andb_prop in H as [Hc He].
  apply Z.eqb_eq in Hc. apply Z.leb_le in He.
  change (Z.pos (digits2_pos m)) with (Zdigits2 (Z.pos m)) in Hc.
  split; [apply Zdigits2_le; lia |].
  split; [lia |].
  intros Hn. change 23 with (24 - 1). apply Zdigits2_ge; lia.
Qed.

(** The order of two positive canonical numbers, on their values. *)
Lemma SFltb_pos_finite mx ex my ey :
  bounded 24 128 mx ex = true -> bounded 24 128 my ey = true ->
  SFltb (S754_finite false mx ex) (S754_finite false my ey) = true ->
  ex <= ey /\ Z.pos mx < Z.pos my * 2 ^ (ey - ex).
Proof.
  intros Hx Hy. unfold SFltb, SFcompare.
  destruct (bounded32_inv mx ex Hx) as (Hmx & Hex & _).
  destruct (bounded32_inv my ey Hy) as (_ & Hey & Hny).
  destruct (Z.compare_spec ex ey) as [Heq | Hlt | Hgt]; intros H.
  - subst ey. rewrite Z.sub_diag, Z.pow_0_r.
    fold (Pos.compare mx my) in H.
    destruct (Pos.compare_spec mx my); try discriminate H. lia.
  - split; [lia |].
    assert (2 ^ 1 <= 2 ^ (ey - ex)) by (apply Z.pow_le_mono_r; lia).
    specialize (Hny ltac:(lia)). nia.
  - discriminate H.
Qed.

Lemma pow2_split a b : 0 <= a -> 0 <= b -> 2 ^ (a + b) = 2 ^ a * 2 ^ b.
Proof. intros. apply Z.pow_add_r; assumption. Qed.

(** A quotient of two positive numbers, the smaller by the larger,
    rounds to a number below one. *)
Lemma SFdiv_lt_one mx ex my ey :
  bounded 24 128 mx ex = true -> bounded 24 128 my ey = true ->
  SFltb (S754_finite false mx ex) (S754_finite false my ey) = true ->
  SFltb (SFdiv 24 128 (S754_finite false mx ex) (S754_finite false my ey))
        F32.one = true.
Proof.
  intros Hx Hy Hlt.
  destruct (SFltb_pos_finite mx ex my ey Hx Hy Hlt) as [Hexy Hval].
  destruct (bounded32_inv mx ex Hx) as (Hmx & _ & _).
  destruct (SFdiv_finite_spec false mx ex false my ey)
    as (m2 & Hb & Hm2 & -> & _).
  pose proof (div_e32_le mx ex my ey) as Hle.
  pose proof (div_q32_nonneg mx ex my ey) as Hq0.
  set (e' := div_e32 mx ex my ey) in *.
  set (q := div_q32 mx ex my ey) in *.
  set (s := ex - ey - e') in *.
  assert (Hs : 0 <= s) by (subst s; lia).
  set (Y := Z.pos my * 2 ^ (ey - ex)) in *.
  (* the quotient is below 2 ^ (- e') *)
  assert (HYs : Y * 2 ^ s = Z.pos my * 2 ^ (- e')).
  { subst Y s. rewrite <- Z.mul_assoc, <- pow2_split by lia.
    do 2 f_equal. lia. }
  assert (Hq : q < 2 ^ (- e')).
  { subst q. unfold div_q32. fold e'. fold s.
    apply Z.div_lt_upper_bound; [lia |].
    rewrite <- HYs.
    apply Z.mul_lt_mono_pos_r; [apply Z.pow_pos_nonneg; lia | exact Hval]. }
  assert (He1 : cexp32 q e' <= -24).
  { rewrite cexp32_eq.
    destruct (Z.eq_dec q 0) as [-> | Hq1]; [simpl Zdigits2; lia |].
    assert (Zdigits2 q <= - e') by (apply Zdigits2_le; lia). lia. }
  set (e1 := cexp32 q e') in *.
  change F32.one with (S754_finite false 8388608 (-23)).
  change (xorb false false) with false.
  unfold finish32, SFltb.
  destruct (Z.eqb_spec m2 0) as [-> | H0]; [reflexivity |].
  destruct (Z.eqb_spec m2 (2 ^ 24)) as [-> | H24].
  - (* the rounded mantissa cannot reach 2 ^ 24 at exponent -24 *)
    destruct (Z.leb_spec (e1 + 1) 104); [| lia].
    unfold SFcompare.
    destruct (Z.compare_spec (e1 + 1) (-23)) as [Heq | ? | ?];
      [exfalso | reflexivity | lia].
    assert (Hn : e1 - e' = s + (ey - ex) - 24) by (subst s; lia).
    pose proof (div_pow2_cexp32 q e' Hq0 (div_e32_cexp32 mx ex my ey)) as Hm1.
    fold e1 in Hm1.
    destruct Hm2 as [Hm | [_ Hup]]; [lia |].
    rewrite Hn in Hup.
    assert (Hce : e' <= e1) by apply div_e32_cexp32.
    assert (Hn0 : 0 <= s + (ey - ex) - 24) by lia.
    set (n := s + (ey - ex) - 24) in *.
    assert (Hpn : 0 < 2 ^ n) by (apply Z.pow_pos_nonneg; lia).
    assert (Hpd : 0 < 2 ^ (ey - ex)) by (apply Z.pow_pos_nonneg; lia).
    assert (Hsn : 2 ^ s * 2 ^ (ey - ex) = 2 ^ n * 2 ^ 24).
    { rewrite <- !pow2_split by lia. f_equal. lia. }
    (* multiply the rounding condition by 2 ^ (ey - ex) *)
    assert (Hup' : (2 * 2 ^ 24 - 1) * Y * 2 ^ n
                   <= Z.pos mx * 2 ^ 25 * 2 ^ n).
    { apply Z.mul_le_mono_nonneg_r with (p := 2 ^ (ey - ex)) in Hup; [| lia].
      replace ((2 * 2 ^ 24 - 1) * 2 ^ n * Z.pos my * 2 ^ (ey - ex))
        with ((2 * 2 ^ 24 - 1) * Y * 2 ^ n) in Hup by (subst Y; ring).
      replace (2 * (Z.pos mx * 2 ^ s) * 2 ^ (ey - ex))
        with (2 * Z.pos mx * (2 ^ s * 2 ^ (ey - ex))) in Hup by ring.
      rewrite Hsn in Hup.
      replace (2 * Z.pos mx * (2 ^ n * 2 ^ 24))
        with (Z.pos mx * 2 ^ 25 * 2 ^ n) in Hup by (change (2 ^ 25) with (2 * 2 ^ 24); ring).
      exact Hup. }
    apply Z.mul_le_mono_pos_r in Hup'; [| exact Hpn].
    change (2 ^ 24) with 16777216 in *. change (2 ^ 25) with 33554432 in *.
    lia.
  - destruct (Z.leb_spec e1 104); [| lia].
    unfold SFcompare.
    destruct (Z.compare_spec e1 (-23)); [lia | reflexivity | lia].
Qed.

(** *** Integers and their quotient *)

Lemma Pos_iter_xO p k : Z.pos (Pos.iter xO p k) = Z.pos p * 2 ^ Z.pos k.
Proof.
  induction k as [|k IH] using Pos.peano_ind.
  - simpl. lia.
  - rewrite Pos.iter_succ, Pos2Z.inj_xO, IH, Pos2Z.inj_succ, Z.pow_succ_r by lia.
    ring.
Qed.

Lemma Zdigits2_24 m : 2 ^ 23 <= m < 2 ^ 24 -> Zdigits2 m = 24.
Proof.
  intros [Hlo Hhi].
  assert (Zdigits2 m <= 24) by (apply Zdigits2_le; lia).
  assert (24 <= Zdigits2 m) by (apply Zdigits2_ge; [lia | lia | exact Hlo]).
  lia.
Qed.

Lemma Zdigits2_mul_pow2 m k :
  0 < m -> 0 <= k -> Zdigits2 (m * 2 ^ k) = Zdigits2 m + k.
Proof.
  intros Hm Hk.
  assert (0 < 2 ^ k) by (apply Z.pow_pos_nonneg; lia).
  rewrite !Zdigits2_log2 by nia.
  rewrite Z.log2_mul_pow2 by lia. lia.
Qed.

(** A rounded mantissa of 24 bits makes a normal number. *)
Lemma finish32_normal s m2 e1 :
  2 ^ 23 <= m2 <= 2 ^ 24 -> e1 + 1 <= 104 ->
  exists m e,
    finish32 s m2 e1 = S754_finite s m e
    /\ 2 ^ 23 <= Z.pos m < 2 ^ 24 /\ e1 <= e <= e1 + 1.
Proof.
  intros Hm He. unfold finish32.
  destruct (Z.eqb_spec m2 0) as [-> | H0]; [lia |].
  destruct (Z.eqb_spec m2 (2 ^ 24)) as [-> | H24].
  - destruct (Z.leb_spec (e1 + 1) 104); [| lia].
    exists (2 ^ 23)%positive, (e1 + 1). repeat split; lia.
  - destruct (Z.leb_spec e1 104); [| lia].
    exists (Z.to_pos m2), e1. rewrite Z2Pos.id by lia. repeat split; lia.
Qed.

(** [shl_align] gives the mantissa of an [int] at least 24 bits. *)
Lemma shl_align_int p :
  Zdigits2 (Z.pos p) <= 31 ->
  exists mz ez,
    shl_align p 0 (Z.max (Zdigits2 (Z.pos p) + 0 - 24) (-149)) = (mz, ez)
    /\ 24 <= Zdigits2 (Z.pos mz)
    /\ Zdigits2 (Z.pos mz) + ez = Zdigits2 (Z.pos p)
    /\ -23 <= ez <= 0.
Proof.
  intros Hd31.
  pose proof (Zdigits2_pos (Z.pos p) ltac:(lia)) as Hd1.
  set (d := Zdigits2 (Z.pos p)) in *.
  unfold shl_align.
  destruct (Z_lt_le_dec d 24) as [Hlt | Hge].
  - replace (Z.max (d + 0 - 24) (-149) - 0) with (Z.neg (Z.to_pos (24 - d)))
      by lia.
    eexists _, _. split; [reflexivity |].
    rewrite Pos_iter_xO, Zdigits2_mul_pow2, Z2Pos.id by lia.
    fold d. lia.
  - exists p, 0. fold d. split; [| lia].
    destruct (Z.max (d + 0 - 24) (-149) - 0) eqn:Hk; try reflexivity; lia.
Qed.

(** [float(i)] of a positive [int] is a normal number. *)
Lemma of_int_normal i :
  0 < i < 2 ^ 31 ->
  exists m e,
    F32.of_int i = S754_finite false m e
    /\ bounded 24 128 m e = true
    /\ 2 ^ 23 <= Z.pos m < 2 ^ 24 /\ -23 <= e <= 8.
Proof.
  intros Hi. destruct i as [|p|p]; try lia.
  pose proof (Zdigits2_pos (Z.pos p) ltac:(lia)) as Hd1.
  assert (Hd31 : Zdigits2 (Z.pos p) <= 31) by (apply Zdigits2_le; lia).
  unfold F32.of_int, binary_normalize, binary_round. f32_consts.
  rewrite fexp32_eq.
  change (Z.pos (digits2_pos p)) with (Zdigits2 (Z.pos p)).
  destruct (shl_align_int p Hd31) as (mz & ez & -> & Hdz & Hsum & Hez).
  assert (Hce : cexp32 (Z.pos mz) ez = Zdigits2 (Z.pos p) - 24)
    by (rewrite cexp32_eq; lia).
  destruct (binary_round_aux_spec false (Z.pos mz) ez loc_Exact)
    as (m2 & Hb & Hm2 & -> & Hv); [lia | lia |].
  (* the mantissa that is kept has exactly 24 bits *)
  destruct (Zdigits2_div_pow2 (Z.pos mz) (cexp32 (Z.pos mz) ez - ez))
    as [Hpos Hdig]; [lia | lia |].
  assert (Hm1 : 2 ^ 23 <= Z.pos mz / 2 ^ (cexp32 (Z.pos mz) ez - ez)).
  { change 23 with (24 - 1). apply Zdigits2_ge; lia. }
  destruct (finish32_normal false m2 (cexp32 (Z.pos mz) ez))
    as (m & e & Hf & Hm & He); [| lia |].
  { destruct Hm2 as [-> | [-> _]]; lia. }
  rewrite Hf in *. exists m, e. repeat split; try lia; exact Hv.
Qed.

(** The quotient of two normal numbers of moderate size is a positive
    normal number: no underflow, no overflow. *)
Lemma SFdiv_normal mx ex my ey :
  2 ^ 23 <= Z.pos mx < 2 ^ 24 -> 2 ^ 23 <= Z.pos my < 2 ^ 24 ->
  -23 <= ex <= 8 -> -23 <= ey <= 8 ->
  pos_finite32
    (F32.div (S754_finite false mx ex) (S754_finite false my ey)) = true.
Proof.
  intros Hmx Hmy Hex Hey. unfold F32.div. f32_consts.
  destruct (SFdiv_finite_spec false mx ex false my ey)
    as (m2 & Hb & Hm2 & -> & Hv).
  assert (He' : div_e32 mx ex my ey = ex - ey - 24).
  { unfold div_e32. rewrite fexp32_eq, !Zdigits2_24 by assumption. lia. }
  assert (Hq : 2 ^ 23 <= div_q32 mx ex my ey < 2 ^ 25).
  { unfold div_q32. rewrite He'.
    replace (ex - ey - (ex - ey - 24)) with 24 by lia. split.
    - apply Z.div_le_lower_bound; lia.
    - apply Z.div_lt_upper_bound; lia. }
  set (q := div_q32 mx ex my ey) in *.
  set (e' := div_e32 mx ex my ey) in *.
  assert (Hdq : 24 <= Zdigits2 q <= 25).
  { split; [apply Zdigits2_ge; lia | apply Zdigits2_le; lia]. }
  assert (Hm1 : 2 ^ 23 <= q / 2 ^ (cexp32 q e' - e')).
  { rewrite cexp32_eq.
    destruct (Zdigits2_div_pow2 q (Z.max (Zdigits2 q + e' - 24) (-149) - e'))
      as [Hpos Hd]; [lia | lia |].
    change 23 with (24 - 1). apply Zdigits2_ge; lia. }
  destruct (finish32_normal false m2 (cexp32 q e'))
    as (m & e & Hf & Hm & He).
  - destruct Hm2 as [-> | [-> _]]; lia.
  - rewrite cexp32_eq. lia.
  - change (xorb false false) with false in *. rewrite Hf in *. exact Hv.
Qed.

(** The drawable aspect ratio of a widget of positive size. *)
Lemma screenAspectRatio_pos_finite width height :
  0 < width < 2 ^ 31 -> 0 < height < 2 ^ 31 ->
  pos_finite32 (F32.div (F32.of_int width) (F32.of_int height)) = true.
Proof.
  intros Hw Hh.
  destruct (of_int_normal width Hw) as (mw & ew & -> & _ & Hmw & Hew).
  destruct (of_int_normal height Hh) as (mh & eh & -> & _ & Hmh & Heh).
  apply SFdiv_normal; assumption.
Qed.

(** A negative quotient is below one, whatever it rounds to. *)
Lemma finish32_negative_lt_one m2 e1 :
  F32.ltb (finish32 true m2 e1) F32.one = true.
Proof.
  unfold finish32.
  destruct (m2 =? 0); [reflexivity |].
  destruct (m2 =? 2 ^ 24); [destruct (e1 + 1 <=? 104) | destruct (e1 <=? 104)];
    reflexivity.
Qed.

Lemma SFcompare_pos_finite_Gt mx ex my ey :
  SFcompare (S754_finite false mx ex) (S754_finite false my ey) = Some Gt ->
  SFltb (S754_finite false my ey) (S754_finite false mx ex) = true.
Proof.
  unfold SFltb, SFcompare. rewrite (Z.compare_antisym ex ey).
  destruct (ex ?= ey); simpl; try discriminate; [| reflexivity].
  fold (Pos.compare mx my). fold (Pos.compare my mx).
  rewrite (Pos.compare_antisym mx my).
  destruct (mx ?= my)%positive; simpl; try discriminate; reflexivity.
Qed.

Lemma aspectFit_one_factor sar far :
  pos_finite32 sar = true ->
  valid_binary 24 128 far = true -> is_nan far = false ->
  F32.eqb sar far = true
  \/ one_factor_below_one
       (if F32.ltb sar far then (F32.one, F32.div sar far)
        else (F32.div far sar, F32.one)) = true.
Proof.
  intros Hsar Hfar Hnan.
  destruct sar as [| | | [|] ms es]; try discriminate Hsar.
  simpl in Hsar. f32_consts.
  destruct far as [sf | sf | | sf mf ef]; [| | discriminate Hnan |].
  - right. destruct sf; reflexivity.
  - right. destruct sf; reflexivity.
  - destruct sf.
    + right. change (F32.ltb _ (S754_finite true mf ef)) with false.
      unfold one_factor_below_one. cbv iota. cbn [fst snd].
      unfold F32.div. f32_consts.
      destruct (SFdiv_finite_spec true mf ef false ms es)
        as (m2 & _ & _ & -> & _).
      change (xorb true false) with true.
      rewrite finish32_negative_lt_one. reflexivity.
    + simpl in Hfar.
      unfold F32.eqb, F32.ltb, SFeqb. unfold SFltb at 1.
      destruct (SFcompare (S754_finite false ms es) (S754_finite false mf ef))
        as [[| |] |] eqn:Hc.
      * now left.
      * right. unfold one_factor_below_one. cbn [fst snd].
        unfold F32.div, F32.ltb. f32_consts.
        rewrite SFdiv_lt_one; [reflexivity | assumption | assumption |].
        unfold SFltb. rewrite Hc. reflexivity.
      * right. unfold one_factor_below_one. cbn [fst snd].
        unfold F32.div, F32.ltb. f32_consts.
        rewrite SFdiv_lt_one; [reflexivity | assumption | assumption |].
        apply SFcompare_pos_finite_Gt, Hc.
      * discriminate Hc.
Qed.

(** ** The aspect fit *)

(** The drawable ratio of a drawable without width is zero, that of a
    drawable without height is infinite. *)
Lemma screenAspectRatio_no_width height :
  0 < height < 2 ^ 31 -> screenAspectRatio 0 height = S754_zero false.
Proof.
  intros Hh. unfold screenAspectRatio.
  destruct (of_int_normal height Hh) as (mh & eh & -> & _).
  reflexivity.
Qed.

Lemma screenAspectRatio_no_height width :
  0 < width < 2 ^ 31 -> screenAspectRatio width 0 = S754_infinity false.
Proof.
  intros Hw. unfold screenAspectRatio.
  destruct (of_int_normal width Hw) as (mw & ew & -> & _).
  reflexivity.
Qed.

Lemma aspectFit_one_factor_zero far :
  is_nan far = false ->
  F32.eqb (S754_zero false) far = true
  \/ one_factor_below_one
       (if F32.ltb (S754_zero false) far
        then (F32.one, F32.div (S754_zero false) far)
        else (F32.div far (S754_zero false), F32.one)) = true.
Proof.
  intros Hnan.
  destruct far as [s | s | | s m e]; [| | discriminate Hnan |].
  - left. reflexivity.
  - right. destruct s; reflexivity.
  - right. destruct s; reflexivity.
Qed.

Lemma aspectFit_one_factor_infinity far :
  is_nan far = false -> far <> S754_infinity true ->
  F32.eqb (S754_infinity false) far = true
  \/ one_factor_below_one
       (if F32.ltb (S754_infinity false) far
        then (F32.one, F32.div (S754_infinity false) far)
        else (F32.div far (S754_infinity false), F32.one)) = true.
Proof.
  intros Hnan Hinf.
  destruct far as [s | s | | s m e]; [| | discriminate Hnan |].
  - right. destruct s; reflexivity.
  - destruct s; [contradiction Hinf; reflexivity | left; reflexivity].
  - right. destruct s; reflexivity.
Qed.

(** Where the two ratios are not both numbers, neither case of the
    aspect fit applies.  For a drawable of 0 by 0 pixels the drawable
    ratio is 0/0, a NaN: it is not equal to the ratio 2 of the frame,
    and neither factor is below one ([relWidth] is a NaN, [relHeight]
    is one).  The same happens for a drawable of 1920 by 1080 pixels
    when the ratio of the frame is a NaN, and for a drawable of 8 by 0
    pixels, whose ratio is infinite, when the ratio of the frame is
    minus infinity. *)
Lemma aspectFit_degenerate :
  (F32.eqb (screenAspectRatio 0 0) (F32.of_int 2) = false
   /\ one_factor_below_one (aspectFit 0 0 (F32.of_int 2)) = false)
  /\ (F32.eqb (screenAspectRatio 1920 1080) S754_nan = false
      /\ one_factor_below_one (aspectFit 1920 1080 S754_nan) = false)
  /\ (F32.eqb (screenAspectRatio 8 0) (S754_infinity true) = false
      /\ one_factor_below_one (aspectFit 8 0 (S754_infinity true)) = false).
Proof. vm_compute. repeat split. Qed.

(** C5: for every size of the drawable, its width and height C++ [int]s
    that are not negative and not both zero (the widget has a minimum
    size of 8 by 8, line 61), and every ratio of the frame that is a
    binary32 number, the infinities included (but not minus infinity on
    a drawable without height): [relWidth] is one and [relHeight] is
    the drawable ratio divided by the ratio of the frame when the
    drawable ratio is below the ratio of the frame, and [relHeight] is
    one and [relWidth] the ratio of the frame divided by the drawable
    ratio otherwise; exactly one of the two factors is below one unless
    the two ratios are equal.  A drawable of 1920 by 1080 pixels and a
    ratio 2 of the frame give [relWidth] = 1 and
    [relHeight] = 14913081 / 2^24, about 0.889. *)
Theorem aspectFit_shrinks_one_axis width height far :
  0 <= width < 2 ^ 31 -> 0 <= height < 2 ^ 31 ->
  0 < width \/ 0 < height ->
  valid_binary F32.prec F32.emax far = true -> is_nan far = false ->
  (height = 0 -> far <> S754_infinity true) ->
  aspectFit width height far
  = (if F32.ltb (screenAspectRatio width height) far
     then (F32.one, F32.div (screenAspectRatio width height) far)
     else (F32.div far (screenAspectRatio width height), F32.one))
  /\ (F32.eqb (screenAspectRatio width height) far = true
      \/ one_factor_below_one (aspectFit width height far) = true)
  /\ aspectFit 1920 1080 (F32.of_int 2)
     = (F32.one, S754_finite false 14913081 (-24)).
Proof.
  intros Hw Hh Hpos Hfar Hnan Hinf.
  split; [reflexivity |]. split; [| vm_compute; reflexivity].
  unfold aspectFit.
  destruct (Z.eq_dec width 0) as [-> | Hw0];
    destruct (Z.eq_dec height 0) as [-> | Hh0].
  - lia.
  - rewrite !screenAspectRatio_no_width by lia.
    apply aspectFit_one_factor_zero, Hnan.
  - rewrite !screenAspectRatio_no_height by lia.
    apply aspectFit_one_factor_infinity; [exact Hnan | apply Hinf; reflexivity].
  - apply aspectFit_one_factor; [| exact Hfar | exact Hnan].
    apply screenAspectRatio_pos_finite; lia.
Qed.

Lemma aspectFit_shrinks_one_axis_witness :
  F32.eqb (screenAspectRatio 1920 1080) (F32.of_int 2) = true
  \/ one_factor_below_one (aspectFit 1920 1080 (F32.of_int 2)) = true.
Proof.
  apply (aspectFit_shrinks_one_axis 1920 1080 (F32.of_int 2));
    [lia | lia | lia | reflexivity | reflexivity | discriminate].
Defined.

(** ** The trace of [paintGL] *)

Lemma fillViewTexture_eq isGLES a360 m fg v w :
  fillViewTexture isGLES a360 m fg v w
  = if needThisView m (_alternatingLastView w) v then
      (if sizeDiffers fg v w
       then set_viewTexSize v (viewWidth fg) (viewHeight fg) w else w,
       glBindTexture v
       :: (if sizeDiffers fg v w
           then [glTexImage2D v (if isGLES then GL_RGB10_A2 else GL_RGB16)
                   (viewWidth fg) (viewHeight fg)]
           else [])
       ++ [binoRender (threeSixtyAngles a360 w) v (viewWidth fg) (viewHeight fg);
           glBindTexture v; glGenerateMipmap v])
    else (w, []).
Proof.
  unfold fillViewTexture, sizeDiffers.
  destruct (needThisView m (_alternatingLastView w) v); [| reflexivity].
  simpl negb. cbv iota. unfold seq. rewrite prepareViewTexture_eq.
  destruct (negb _ || negb _); reflexivity.
Qed.

(** The parts of the trace of [paintGL]: the two turns of the loop, the
    set-up of the draw, the draw, the update of the parity. *)
Lemma paintGL_parts isGLES a360 fg w :
  exists w0 w1 t0 t1 mid,
    fillViewTexture isGLES a360 (adjustStereoMode w fg) fg 0 w = (w0, t0)
    /\ fillViewTexture isGLES a360 (adjustStereoMode w fg) fg 1 w0 = (w1, t1)
    /\ mid = [glViewport (_width w) (_height w);
              setRelative
                (fst (aspectFit (_width w) (_height w)
                        (frameDisplayAspectRatio fg)))
                (snd (aspectFit (_width w) (_height w)
                        (frameDisplayAspectRatio fg)));
              glBindTexture 0; glBindTexture 1]
    /\ paintGL isGLES a360 fg w
       = (fst (updateAlternating fg w1),
          (t0 ++ t1) ++ mid
          ++ snd (drawViews (adjustStereoMode w fg) w)
          ++ snd (updateAlternating fg w1)).
Proof.
  pose proof (fillViewTexture_keeps _width isGLES a360
                (adjustStereoMode w fg) fg 0 (fun _ _ _ => eq_refl) w) as Hw0.
  pose proof (fillViewTexture_keeps _height isGLES a360
                (adjustStereoMode w fg) fg 0 (fun _ _ _ => eq_refl) w) as Hh0.
  pose proof (fillViewTexture_keeps _openGLStereo isGLES a360
                (adjustStereoMode w fg) fg 0 (fun _ _ _ => eq_refl) w) as Hs0.
  pose proof (fillViewTexture_keeps _alternatingLastView isGLES a360
                (adjustStereoMode w fg) fg 0 (fun _ _ _ => eq_refl) w) as Ha0.
  destruct (fillViewTexture isGLES a360 (adjustStereoMode w fg) fg 0 w)
    as [w0 t0] eqn:E0.
  pose proof (fillViewTexture_keeps _width isGLES a360
                (adjustStereoMode w fg) fg 1 (fun _ _ _ => eq_refl) w0) as Hw1.
  pose proof (fillViewTexture_keeps _height isGLES a360
                (adjustStereoMode w fg) fg 1 (fun _ _ _ => eq_refl) w0) as Hh1.
  pose proof (fillViewTexture_keeps _openGLStereo isGLES a360
                (adjustStereoMode w fg) fg 1 (fun _ _ _ => eq_refl) w0) as Hs1.
  pose proof (fillViewTexture_keeps _alternatingLastView isGLES a360
                (adjustStereoMode w fg) fg 1 (fun _ _ _ => eq_refl) w0) as Ha1.
  destruct (fillViewTexture isGLES a360 (adjustStereoMode w fg) fg 1 w0)
    as [w1 t1] eqn:E1.
  simpl in *.
  eexists w0, w1, t0, t1, _.
  split; [reflexivity |]. split; [exact E1 |]. split; [reflexivity |].
  unfold paintGL, paintGL_draw. simpl for_each. unfold seq.
  rewrite E0, E1. unfold skip, emit.
  rewrite Hw1, Hw0, Hh1, Hh0.
  destruct (aspectFit _ _ _) as [rw rh].
  assert (Hd : drawViews (adjustStereoMode w fg) w1
               = (w1, snd (drawViews (adjustStereoMode w fg) w))).
  { unfold drawViews, emit. rewrite Hs1, Hs0, Ha1, Ha0.
    destruct (_openGLStereo w); [destruct (bool_decide _) |]; reflexivity. }
  rewrite Hd.
  destruct (updateAlternating fg w1) as [w2 t2]. simpl.
  rewrite ?app_nil_r, <- ?app_assoc. reflexivity.
Qed.

Lemma sizeDiffers_other fg u v vw vh w :
  Z.to_nat u <> Z.to_nat v ->
  sizeDiffers fg v (set_viewTexSize u vw vh w) = sizeDiffers fg v w.
Proof.
  intros Hne. unfold sizeDiffers, set_viewTexSize. simpl.
  rewrite !list_lookup_total_insert_ne by exact Hne. reflexivity.
Qed.

Lemma drawViews_trace_free m w :
  renderedViews (snd (drawViews m w)) = []
  /\ allocatedViews (snd (drawViews m w)) = []
  /\ updates (snd (drawViews m w)) = 0%nat.
Proof.
  unfold drawViews, emit.
  destruct (_openGLStereo w); [destruct (bool_decide _) |];
    repeat split; reflexivity.
Qed.

Lemma updateAlternating_eq fg w :
  updateAlternating fg w
  = if bool_decide (_stereoMode w = Mode_Alternating) && (viewCount fg =? 2)
    then (set_alternatingLastView (flip (_alternatingLastView w)) w, [update])
    else (w, []).
Proof.
  unfold updateAlternating, frameIsStereo.
  destruct (bool_decide _ && _); reflexivity.
Qed.

Lemma threeSixtyAngles_set_viewTexSize a360 v vw vh w :
  threeSixtyAngles a360 (set_viewTexSize v vw vh w) = threeSixtyAngles a360 w.
Proof. reflexivity. Qed.

(** The trace of [paintGL], every part from the state before the call. *)
Lemma paintGL_trace_eq isGLES a360 fg w :
  snd (paintGL isGLES a360 fg w)
  = snd (fillViewTexture isGLES a360 (adjustStereoMode w fg) fg 0 w)
    ++ snd (fillViewTexture isGLES a360 (adjustStereoMode w fg) fg 1 w)
    ++ [glViewport (_width w) (_height w);
        setRelative
          (fst (aspectFit (_width w) (_height w)
                  (frameDisplayAspectRatio fg)))
          (snd (aspectFit (_width w) (_height w)
                  (frameDisplayAspectRatio fg)));
        glBindTexture 0; glBindTexture 1]
    ++ snd (drawViews (adjustStereoMode w fg) w)
    ++ snd (updateAlternating fg w).
Proof.
  destruct (paintGL_parts isGLES a360 fg w)
    as (w0 & w1 & t0 & t1 & mid & E0 & E1 & Hmid & ->).
  subst mid. cbn [snd]. rewrite <- app_assoc. rewrite E0. cbn [snd].
  f_equal.
  assert (H0 : w0 = w \/ exists vw vh, w0 = set_viewTexSize 0 vw vh w).
  { rewrite fillViewTexture_eq in E0.
    destruct (needThisView _ _ 0); [destruct (sizeDiffers fg 0 w) |];
      injection E0 as <- _; eauto. }
  assert (H1 : w1 = w0 \/ exists vw vh, w1 = set_viewTexSize 1 vw vh w0).
  { rewrite fillViewTexture_eq in E1.
    destruct (needThisView _ _ 1); [destruct (sizeDiffers fg 1 w0) |];
      injection E1 as <- _; eauto. }
  assert (Ht1 : t1 = snd (fillViewTexture isGLES a360
                            (adjustStereoMode w fg) fg 1 w)).
  { replace t1 with (snd (fillViewTexture isGLES a360
                            (adjustStereoMode w fg) fg 1 w0))
      by (rewrite E1; reflexivity).
    destruct H0 as [-> | (vw & vh & ->)]; [reflexivity |].
    rewrite !fillViewTexture_eq.
    rewrite sizeDiffers_other by (simpl; lia).
    change (_alternatingLastView (set_viewTexSize 0 vw vh w))
      with (_alternatingLastView w).
    rewrite threeSixtyAngles_set_viewTexSize.
    destruct (needThisView _ _ 1); reflexivity. }
  assert (Hu : snd (updateAlternating fg w1) = snd (updateAlternating fg w)).
  { rewrite !updateAlternating_eq.
    destruct H1 as [-> | (? & ? & ->)];
      destruct H0 as [-> | (? & ? & ->)]; simpl _stereoMode;
      destruct (bool_decide _ && _); reflexivity. }
  rewrite Ht1, Hu. reflexivity.
Qed.

(** Case analysis on every test that the goal still branches on. *)
Ltac all_branches :=
  repeat (match goal with
          | |- context [if ?b then _ else _] =>
              lazymatch b with
              | ?x && _ => destruct x
              | _ => destruct b
              end
          end; cbn [andb]).

Ltac paintGL_trace_cases w fg :=
  rewrite paintGL_trace_eq, !fillViewTexture_eq, updateAlternating_eq;
  unfold drawViews, emit.

(** The player is asked for the views that the switch needs, each once,
    the left one first. *)
Lemma paintGL_renderedViews isGLES a360 fg w :
  renderedViews (snd (paintGL isGLES a360 fg w))
  = (if needThisView (adjustStereoMode w fg) (_alternatingLastView w) 0
     then [0] else [])
    ++ (if needThisView (adjustStereoMode w fg) (_alternatingLastView w) 1
        then [1] else []).
Proof.
  paintGL_trace_cases w fg.
  all_branches; reflexivity.
Qed.

(** Storage is allocated for the views that are needed and whose
    texture has another size, and for no other. *)
Lemma paintGL_allocatedViews isGLES a360 fg w :
  allocatedViews (snd (paintGL isGLES a360 fg w))
  = (if needThisView (adjustStereoMode w fg) (_alternatingLastView w) 0
        && sizeDiffers fg 0 w
     then [0] else [])
    ++ (if needThisView (adjustStereoMode w fg) (_alternatingLastView w) 1
           && sizeDiffers fg 1 w
        then [1] else []).
Proof.
  paintGL_trace_cases w fg.
  all_branches; reflexivity.
Qed.

Lemma paintGL_drawnModes isGLES a360 fg w :
  drawnModes (snd (paintGL isGLES a360 fg w))
  = if _openGLStereo w
       && bool_decide (adjustStereoMode w fg = Mode_OpenGL_Stereo)
    then [Mode_Left; Mode_Right]
    else [resolveAlternating (adjustStereoMode w fg)
            (_alternatingLastView w)].
Proof.
  paintGL_trace_cases w fg.
  all_branches; reflexivity.
Qed.

Lemma paintGL_updates_draws isGLES a360 fg w :
  updates (snd (paintGL isGLES a360 fg w))
  = (if bool_decide (_stereoMode w = Mode_Alternating) && (viewCount fg =? 2)
     then 1%nat else 0%nat)
  /\ draws (snd (paintGL isGLES a360 fg w))
     = (if _openGLStereo w then 2%nat else 1%nat).
Proof.
  paintGL_trace_cases w fg.
  all_branches; split; reflexivity.
Qed.

(** X1: [paintGL] asks the player for exactly the views that the mode
    of the frame needs, each once and the left one first, and allocates
    storage for exactly those of them whose texture has another size
    than the views of the frame. *)
Theorem paintGL_renders_needed_views isGLES a360 fg w :
  renderedViews (snd (paintGL isGLES a360 fg w))
  = (if needThisView (adjustStereoMode w fg) (_alternatingLastView w) 0
     then [0] else [])
    ++ (if needThisView (adjustStereoMode w fg) (_alternatingLastView w) 1
        then [1] else [])
  /\ allocatedViews (snd (paintGL isGLES a360 fg w))
     = (if needThisView (adjustStereoMode w fg) (_alternatingLastView w) 0
           && sizeDiffers fg 0 w
        then [0] else [])
       ++ (if needThisView (adjustStereoMode w fg) (_alternatingLastView w) 1
              && sizeDiffers fg 1 w
           then [1] else []).
Proof.
  split; [apply paintGL_renderedViews | apply paintGL_allocatedViews].
Qed.

(** X2: [paintGL] asks for a repaint itself exactly when the parity
    flips, that is in [Mode_Alternating] on a frame with two views, and
    then once; it draws the quad once, or twice when the widget has the
    two buffers of OpenGL stereo. *)
Theorem paintGL_repaints_and_draws isGLES a360 fg w :
  updates (snd (paintGL isGLES a360 fg w))
  = (if bool_decide (_stereoMode w = Mode_Alternating) && (viewCount fg =? 2)
     then 1%nat else 0%nat)
  /\ draws (snd (paintGL isGLES a360 fg w))
     = (if _openGLStereo w then 2%nat else 1%nat)
  /\ drawnModes (snd (paintGL isGLES a360 fg w))
     = (if _openGLStereo w
           && bool_decide (adjustStereoMode w fg = Mode_OpenGL_Stereo)
        then [Mode_Left; Mode_Right]
        else [resolveAlternating (adjustStereoMode w fg)
                (_alternatingLastView w)]).
Proof.
  destruct (paintGL_updates_draws isGLES a360 fg w) as [Hu Hd].
  repeat split; [exact Hu | exact Hd | apply paintGL_drawnModes].
Qed.

(** The state after [paintGL]: the sizes of the textures that got new
    storage, then the parity. *)
Lemma paintGL_state_eq isGLES a360 fg w :
  fst (paintGL isGLES a360 fg w)
  = fst (updateAlternating fg
           (fst (fillViewTexture isGLES a360 (adjustStereoMode w fg) fg 1
                   (fst (fillViewTexture isGLES a360
                           (adjustStereoMode w fg) fg 0 w))))).
Proof.
  destruct (paintGL_parts isGLES a360 fg w)
    as (w0 & w1 & t0 & t1 & mid & E0 & E1 & Hmid & ->).
  rewrite E0. cbn [fst]. rewrite E1. reflexivity.
Qed.

Lemma sizeDiffers_set fg v w :
  (Z.to_nat v < length (_viewTexWidth w))%nat ->
  (Z.to_nat v < length (_viewTexHeight w))%nat ->
  sizeDiffers fg v (set_viewTexSize v (viewWidth fg) (viewHeight fg) w)
  = false.
Proof.
  intros Hw Hh. unfold sizeDiffers, set_viewTexSize. simpl.
  rewrite !list_lookup_total_insert_eq by assumption.
  rewrite !Z.eqb_refl. reflexivity.
Qed.

Lemma length_set_viewTexSize v vw vh w :
  length (_viewTexWidth (set_viewTexSize v vw vh w))
  = length (_viewTexWidth w)
  /\ length (_viewTexHeight (set_viewTexSize v vw vh w))
     = length (_viewTexHeight w).
Proof. unfold set_viewTexSize. simpl. rewrite !length_insert. now split. Qed.

(** After [paintGL] the texture of every view that was needed has the
    size of the views of the frame. *)
Lemma paintGL_sizes isGLES a360 fg w v :
  length (_viewTexWidth w) = 2%nat -> length (_viewTexHeight w) = 2%nat ->
  v = 0 \/ v = 1 ->
  sizeDiffers fg v (fst (paintGL isGLES a360 fg w))
  = negb (needThisView (adjustStereoMode w fg) (_alternatingLastView w) v)
    && sizeDiffers fg v w.
Proof.
  intros Hw Hh Hv. rewrite paintGL_state_eq, updateAlternating_eq.
  rewrite !fillViewTexture_eq.
  assert (Hs : forall x, sizeDiffers fg v (fst
                (if bool_decide (_stereoMode x = Mode_Alternating)
                    && (viewCount fg =? 2)
                 then (set_alternatingLastView
                         (flip (_alternatingLastView x)) x, [update])
                 else (x, []))) = sizeDiffers fg v x).
  { intros x. destruct (bool_decide _ && _); reflexivity. }
  rewrite Hs. clear Hs.
  destruct (needThisView _ _ 0) eqn:N0; cbn [fst].
  - destruct (sizeDiffers fg 0 w) eqn:D0;
      change (_alternatingLastView (set_viewTexSize 0 _ _ w))
        with (_alternatingLastView w);
      destruct (needThisView _ _ 1) eqn:N1; cbn [fst];
      rewrite ?sizeDiffers_other by (simpl; lia);
      destruct (sizeDiffers fg 1 w) eqn:D1;
      destruct Hv as [-> | ->]; rewrite ?N0, ?N1, ?D0, ?D1; cbn [negb andb];
      rewrite ?sizeDiffers_other by (simpl; lia);
      rewrite ?sizeDiffers_set
        by (rewrite ?(proj1 (length_set_viewTexSize _ _ _ _)),
                    ?(proj2 (length_set_viewTexSize _ _ _ _)), ?Hw, ?Hh;
            simpl; lia);
      rewrite ?D0, ?D1; reflexivity.
  - destruct (needThisView _ _ 1) eqn:N1; cbn [fst];
      destruct (sizeDiffers fg 1 w) eqn:D1;
      destruct Hv as [-> | ->]; rewrite ?N0, ?N1, ?D1; cbn [negb andb];
      rewrite ?sizeDiffers_other by (simpl; lia);
      rewrite ?sizeDiffers_set by (rewrite ?Hw, ?Hh; simpl; lia);
      rewrite ?D1; reflexivity.
Qed.

Lemma updateAlternating_keeps {A} (f : Widget -> A) fg :
  (forall a w, f (set_alternatingLastView a w) = f w) ->
  keeps f (updateAlternating fg).
Proof.
  intros Hf w. rewrite updateAlternating_eq.
  destruct (bool_decide _ && _); [apply Hf | reflexivity].
Qed.

(** [paintGL] changes the sizes of the textures and the parity, and no
    other member. *)
Lemma paintGL_keeps {A} (f : Widget -> A) isGLES a360 fg :
  (forall v vw vh w, f (set_viewTexSize v vw vh w) = f w) ->
  (forall a w, f (set_alternatingLastView a w) = f w) ->
  keeps f (paintGL isGLES a360 fg).
Proof.
  intros Hs Ha w. unfold paintGL.
  apply (keeps_seq f);
    [apply paintGL_draw_keeps, Hs | apply updateAlternating_keeps, Ha].
Qed.

Lemma needThisView_parity m a b v :
  m <> Mode_Alternating -> needThisView m a v = needThisView m b v.
Proof. intros Hm. destruct m; try reflexivity. contradiction. Qed.

(** X3: after [paintGL] for a frame, a [paintGL] for a frame whose
    views have the same width and height, and which like the first has
    two views or like the first has not, allocates nothing, when the
    mode used for the frames is not [Mode_Alternating].  The two frames
    may differ in their aspect ratio and in being 360 degree video, the
    two calls in [isGLES] and [assumeThreeSixtyMode]. *)
Theorem paintGL_again_allocates_nothing isGLES a360 isGLES' a360' fg fg' w :
  length (_viewTexWidth w) = 2%nat -> length (_viewTexHeight w) = 2%nat ->
  adjustStereoMode w fg <> Mode_Alternating ->
  viewWidth fg' = viewWidth fg -> viewHeight fg' = viewHeight fg ->
  frameIsStereo fg' = frameIsStereo fg ->
  allocatedViews
    (snd (paintGL isGLES' a360' fg' (fst (paintGL isGLES a360 fg w)))) = [].
Proof.
  intros Hw Hh Hm Hvw Hvh Hst.
  rewrite paintGL_allocatedViews.
  assert (Hmode : adjustStereoMode (fst (paintGL isGLES a360 fg w)) fg'
                  = adjustStereoMode w fg).
  { unfold adjustStereoMode.
    rewrite (paintGL_keeps _stereoMode) by reflexivity.
    rewrite Hst. reflexivity. }
  rewrite Hmode.
  rewrite !(needThisView_parity _ (_alternatingLastView (fst _))
              (_alternatingLastView w)) by exact Hm.
  assert (Hd : forall v x, sizeDiffers fg' v x = sizeDiffers fg v x).
  { intros v x. unfold sizeDiffers. rewrite Hvw, Hvh. reflexivity. }
  rewrite !Hd.
  rewrite !paintGL_sizes by auto.
  destruct (needThisView _ _ 0); destruct (needThisView _ _ 1); reflexivity.
Qed.

Lemma paintGL_again_allocates_nothing_witness :
  allocatedViews
    (snd (paintGL true true
            {| viewCount := 2; viewWidth := 1920; viewHeight := 1080;
               frameDisplayAspectRatio := F32.of_int 1; threeSixty := true |}
            (fst (paintGL false false
                    {| viewCount := 2; viewWidth := 1920; viewHeight := 1080;
                       frameDisplayAspectRatio := F32.of_int 2;
                       threeSixty := false |}
                    (Widget_new Mode_Red_Cyan_Dubois false))))) = [].
Proof.
  apply (paintGL_again_allocates_nothing false false true true
           {| viewCount := 2; viewWidth := 1920; viewHeight := 1080;
              frameDisplayAspectRatio := F32.of_int 2; threeSixty := false |}
           {| viewCount := 2; viewWidth := 1920; viewHeight := 1080;
              frameDisplayAspectRatio := F32.of_int 1; threeSixty := true |}
           (Widget_new Mode_Red_Cyan_Dubois false));
    [reflexivity | reflexivity | discriminate
    | reflexivity | reflexivity | reflexivity].
Defined.

(** X4: the modes that [paintGL] draws with are never
    [Mode_Alternating], and every view that such a mode needs was
    rendered in the same call. *)
Theorem paintGL_draws_what_it_rendered isGLES a360 fg w m :
  In m (drawnModes (snd (paintGL isGLES a360 fg w))) ->
  m <> Mode_Alternating
  /\ (forall v a, v = 0 \/ v = 1 -> needThisView m a v = true ->
        In v (renderedViews (snd (paintGL isGLES a360 fg w)))).
Proof.
  rewrite paintGL_drawnModes, paintGL_renderedViews.
  set (eff := adjustStereoMode w fg).
  set (alt := _alternatingLastView w).
  destruct (_openGLStereo w && bool_decide (eff = Mode_OpenGL_Stereo)) eqn:Hgl.
  - apply andb_prop in Hgl as [_ Heff]. apply bool_decide_eq_true in Heff.
    rewrite Heff. simpl needThisView. cbv iota.
    intros [<- | [<- | []]]; (split; [discriminate |]);
      intros v a [-> | ->] Hn; try discriminate Hn; simpl; auto.
  - clear Hgl. intros [<- | []]. unfold resolveAlternating.
    destruct (bool_decide (eff = Mode_Alternating)) eqn:Ha.
    + apply bool_decide_eq_true in Ha. rewrite Ha. cbn [needThisView].
      destruct (Z.eqb_spec alt 0) as [Heq | Hne].
      * split; [discriminate |].
        intros v a [-> | ->] Hn; try discriminate Hn.
        rewrite Heq. simpl. auto.
      * split; [discriminate |].
        intros v a [-> | ->] Hn; try discriminate Hn.
        destruct (Z.eqb_spec 0 alt); [lia |]. simpl. auto.
    + apply bool_decide_eq_false in Ha. split; [exact Ha |].
      intros v a Hv Hn.
      rewrite (needThisView_parity eff alt a), (needThisView_parity eff alt a)
        by exact Ha.
      destruct Hv as [-> | ->]; rewrite Hn.
      * simpl. auto.
      * apply in_or_app. right. simpl. auto.
Qed.

Lemma paintGL_draws_what_it_rendered_witness :
  In 0
    (renderedViews
       (snd (paintGL false false
               {| viewCount := 2; viewWidth := 1920; viewHeight := 1080;
                  frameDisplayAspectRatio := F32.of_int 2;
                  threeSixty := false |}
               (Widget_new Mode_Alternating false)))).
Proof.
  refine (proj2 (paintGL_draws_what_it_rendered false false
                   {| viewCount := 2; viewWidth := 1920; viewHeight := 1080;
                      frameDisplayAspectRatio := F32.of_int 2;
                      threeSixty := false |}
                   (Widget_new Mode_Alternating false) Mode_Left _)
            0 0 _ _).
  - vm_compute. left. reflexivity.
  - left. reflexivity.
  - reflexivity.
Defined.

(** ** Invariants of the event loop *)

Lemma run_app es1 es2 w :
  run (es1 ++ es2) w
  = (let '(w1, t1) := run es1 w in
     let '(w2, t2) := run es2 w1 in (w2, t1 ++ t2)).
Proof.
  revert w. induction es1 as [|e es1 IH]; intros w; simpl.
  - unfold skip, emit. destruct (run es2 w). reflexivity.
  - unfold seq. destruct (handle e w) as [w0 t0]. rewrite IH.
    destruct (run es1 w0) as [w1 t1]. destruct (run es2 w1) as [w2 t2].
    now rewrite app_assoc.
Qed.

Lemma flip_bit a : flip a = 0 \/ flip a = 1.
Proof. unfold flip. destruct (a =? 0); auto. Qed.

Lemma paintGL_consistent isGLES a360 fg w :
  consistent w -> consistent (fst (paintGL isGLES a360 fg w)).
Proof.
  intros (Ha & Hw & Hh & Hc).
  unfold consistent.
  rewrite (paintGL_keeps _inThreeSixtyMovement),
          (paintGL_keeps _threeSixtyHorizontalAngleCurrent),
          (paintGL_keeps _threeSixtyVerticalAngleCurrent) by reflexivity.
  rewrite (paintGL_keeps (fun w => length (_viewTexWidth w)))
    by (try reflexivity; intros; apply length_set_viewTexSize).
  rewrite (paintGL_keeps (fun w => length (_viewTexHeight w)))
    by (try reflexivity; intros; apply length_set_viewTexSize).
  split; [| auto].
  unfold paintGL, seq.
  pose proof (paintGL_draw_alternatingLastView isGLES a360 fg
                (adjustStereoMode w fg) w) as Hd.
  destruct (paintGL_draw _ _ _ _ w) as [w1 t1]. simpl in Hd.
  rewrite updateAlternating_eq.
  destruct (bool_decide _ && _); simpl; [apply flip_bit | congruence].
Qed.

Lemma handle_consistent e w : consistent w -> consistent (fst (handle e w)).
Proof.
  destruct e; simpl; try apply paintGL_consistent;
    intros (Ha & Hw & Hh & Hc); unfold consistent.
  - auto.
  - auto.
  - simpl. repeat split; auto; discriminate.
  - unfold mouseMoveEvent.
    destruct (_inThreeSixtyMovement w) eqn:Hact; simpl.
    + repeat split; auto; discriminate.
    + auto.
  - simpl. auto.
  - simpl. auto.
Qed.

Lemma run_consistent es w : consistent w -> consistent (fst (run es w)).
Proof.
  revert w. induction es as [|e es IH]; intros w Hw; simpl.
  - exact Hw.
  - unfold seq. pose proof (handle_consistent e w Hw) as He.
    destruct (handle e w) as [w0 t0]. specialize (IH w0 He).
    destruct (run es w0) as [w1 t1]. exact IH.
Qed.

Lemma run_openGLStereo es w :
  _openGLStereo (fst (run es w)) = _openGLStereo w.
Proof.
  revert w. induction es as [|e es IH]; intros w; simpl; [reflexivity |].
  unfold seq.
  assert (He : _openGLStereo (fst (handle e w)) = _openGLStereo w).
  { destruct e; simpl; try reflexivity.
    - apply (paintGL_keeps _openGLStereo); reflexivity.
    - unfold mouseMoveEvent. destruct (_inThreeSixtyMovement w); reflexivity. }
  destruct (handle e w) as [w0 t0]. specialize (IH w0).
  destruct (run es w0) as [w1 t1]. simpl in *. congruence.
Qed.

(** X5: whatever the events after the construction, the parity is 0 or
    1, both arrays of texture sizes have their two elements, the
    current angles are zero outside a gesture, and [_openGLStereo] is
    what the constructor read. *)
Theorem event_loop_invariants es mode defaultFormatStereo :
  consistent (fst (run es (Widget_new mode defaultFormatStereo)))
  /\ _openGLStereo (fst (run es (Widget_new mode defaultFormatStereo)))
     = defaultFormatStereo.
Proof.
  split; [| apply run_openGLStereo].
  apply run_consistent. unfold consistent. simpl. auto.
Qed.

Lemma paintGL_parity isGLES a360 fg w :
  _alternatingLastView (fst (paintGL isGLES a360 fg w))
  = if bool_decide (_stereoMode w = Mode_Alternating) && (viewCount fg =? 2)
    then flip (_alternatingLastView w) else _alternatingLastView w.
Proof.
  unfold paintGL, seq.
  pose proof (paintGL_draw_alternatingLastView isGLES a360 fg
                (adjustStereoMode w fg) w) as Ha.
  pose proof (paintGL_draw_stereoMode isGLES a360 fg
                (adjustStereoMode w fg) w) as Hm.
  destruct (paintGL_draw _ _ _ _ w) as [w1 t1]. simpl in Ha, Hm.
  rewrite updateAlternating_eq, Hm.
  destruct (bool_decide _ && _); simpl; congruence.
Qed.

(** X6: two frames of a stereo source in [Mode_Alternating].  The first
    call renders and draws the view that was not shown last, the second
    call the other view, and the parity is back where it was. *)
Theorem alternating_two_frames isGLES a360 fg isGLES' a360' fg' w :
  _stereoMode w = Mode_Alternating ->
  viewCount fg = 2 -> viewCount fg' = 2 ->
  _alternatingLastView w = 0 \/ _alternatingLastView w = 1 ->
  renderedViews (snd (paintGL isGLES a360 fg w))
  = [1 - _alternatingLastView w]
  /\ drawnModes (snd (paintGL isGLES a360 fg w))
     = [if _alternatingLastView w =? 0 then Mode_Right else Mode_Left]
  /\ renderedViews
       (snd (paintGL isGLES' a360' fg' (fst (paintGL isGLES a360 fg w))))
     = [_alternatingLastView w]
  /\ drawnModes
       (snd (paintGL isGLES' a360' fg' (fst (paintGL isGLES a360 fg w))))
     = [if _alternatingLastView w =? 0 then Mode_Left else Mode_Right]
  /\ _alternatingLastView
       (fst (paintGL isGLES' a360' fg' (fst (paintGL isGLES a360 fg w))))
     = _alternatingLastView w.
Proof.
  intros Hm Hfg Hfg' Ha.
  assert (Hm1 : _stereoMode (fst (paintGL isGLES a360 fg w))
                = Mode_Alternating).
  { rewrite (paintGL_keeps _stereoMode) by reflexivity. exact Hm. }
  assert (He : adjustStereoMode w fg = Mode_Alternating)
    by (rewrite adjustStereoMode_stereo; assumption).
  assert (He' : adjustStereoMode (fst (paintGL isGLES a360 fg w)) fg'
                = Mode_Alternating)
    by (rewrite adjustStereoMode_stereo; assumption).
  assert (Hp : _alternatingLastView (fst (paintGL isGLES a360 fg w))
               = flip (_alternatingLastView w)).
  { rewrite paintGL_parity, Hm, Hfg. reflexivity. }
  rewrite !paintGL_renderedViews, !paintGL_drawnModes.
  rewrite (paintGL_parity isGLES' a360' fg').
  rewrite He, He', Hm1, Hfg', Hp.
  rewrite !andb_false_r.
  destruct Ha as [-> | ->]; repeat split; reflexivity.
Qed.

Lemma alternating_two_frames_witness :
  renderedViews
    (snd (paintGL false false
            {| viewCount := 2; viewWidth := 1920; viewHeight := 1080;
               frameDisplayAspectRatio := F32.of_int 2; threeSixty := false |}
            (Widget_new Mode_Alternating false))) = [0].
Proof.
  apply (alternating_two_frames false false
           {| viewCount := 2; viewWidth := 1920; viewHeight := 1080;
              frameDisplayAspectRatio := F32.of_int 2; threeSixty := false |}
           false false
           {| viewCount := 2; viewWidth := 1920; viewHeight := 1080;
              frameDisplayAspectRatio := F32.of_int 2; threeSixty := false |}
           (Widget_new Mode_Alternating false));
    [reflexivity | reflexivity | reflexivity | right; reflexivity].
Defined.

(** X7: for a frame with a single view the requested mode does not
    matter: [paintGL] makes the same calls whatever mode is set, and
    changes the other members in the same way. *)
Theorem mono_frame_ignores_requested_mode isGLES a360 fg mode w :
  viewCount fg <> 2 ->
  snd (paintGL isGLES a360 fg (setStereoMode mode w))
  = snd (paintGL isGLES a360 fg w)
  /\ fst (paintGL isGLES a360 fg (setStereoMode mode w))
     = setStereoMode mode (fst (paintGL isGLES a360 fg w)).
Proof.
  intros Hmono.
  assert (Hfs : frameIsStereo fg = false)
    by (unfold frameIsStereo; destruct (Z.eqb_spec (viewCount fg) 2);
        [contradiction | reflexivity]).
  split.
  - rewrite !paintGL_trace_eq, !updateAlternating_eq.
    rewrite !adjustStereoMode_mono by exact Hmono.
    unfold frameIsStereo in Hfs. rewrite Hfs, !andb_false_r.
    rewrite !fillViewTexture_eq. unfold drawViews, emit.
    change (_openGLStereo (setStereoMode mode w)) with (_openGLStereo w).
    change (sizeDiffers fg 0 (setStereoMode mode w))
      with (sizeDiffers fg 0 w).
    cbn [needThisView]. change (0 =? 0) with true. change (1 =? 0) with false.
    cbv iota.
    destruct (sizeDiffers fg 0 w); destruct (_openGLStereo w); reflexivity.
  - rewrite !paintGL_state_eq, !updateAlternating_eq.
    rewrite !adjustStereoMode_mono by exact Hmono.
    unfold frameIsStereo in Hfs. rewrite Hfs, !andb_false_r.
    rewrite !fillViewTexture_eq. cbn [needThisView]. cbn [fst].
    change (0 =? 0) with true. change (1 =? 0) with false. cbv iota.
    cbn [fst].
    change (sizeDiffers fg 0 (setStereoMode mode w))
      with (sizeDiffers fg 0 w).
    destruct (sizeDiffers fg 0 w); reflexivity.
Qed.

Lemma mono_frame_ignores_requested_mode_witness :
  snd (paintGL false false
         {| viewCount := 1; viewWidth := 1920; viewHeight := 1080;
            frameDisplayAspectRatio := F32.of_int 2; threeSixty := false |}
         (setStereoMode Mode_Alternating
            (resizeGL 1920 1080 (Widget_new Mode_Red_Cyan_Dubois false))))
  = snd (paintGL false false
           {| viewCount := 1; viewWidth := 1920; viewHeight := 1080;
              frameDisplayAspectRatio := F32.of_int 2; threeSixty := false |}
           (resizeGL 1920 1080 (Widget_new Mode_Red_Cyan_Dubois false))).
Proof.
  apply (mono_frame_ignores_requested_mode false false
           {| viewCount := 1; viewWidth := 1920; viewHeight := 1080;
              frameDisplayAspectRatio := F32.of_int 2; threeSixty := false |}
           Mode_Alternating
           (resizeGL 1920 1080 (Widget_new Mode_Red_Cyan_Dubois false))).
  simpl. lia.
Defined.

(** ** Gestures *)

(** A move replaces what the move before it has set. *)
Lemma mouseMoveEvent_twice q q' w :
  fst (mouseMoveEvent q (fst (mouseMoveEvent q' w)))
  = fst (mouseMoveEvent q w).
Proof.
  unfold mouseMoveEvent. destruct (_inThreeSixtyMovement w) eqn:Hact; simpl.
  - reflexivity.
  - rewrite Hact. reflexivity.
Qed.

Lemma mouseMoveEvent_updates q w :
  updates (snd (mouseMoveEvent q w))
  = if _inThreeSixtyMovement w then 1%nat else 0%nat.
Proof.
  unfold mouseMoveEvent. destruct (_inThreeSixtyMovement w); reflexivity.
Qed.

Lemma mouseMoveEvent_active q w :
  _inThreeSixtyMovement (fst (mouseMoveEvent q w)) = _inThreeSixtyMovement w.
Proof.
  unfold mouseMoveEvent. destruct (_inThreeSixtyMovement w) eqn:H; simpl;
    [reflexivity | exact H].
Qed.

Lemma updates_app t1 t2 : updates (t1 ++ t2) = (updates t1 + updates t2)%nat.
Proof. unfold updates. rewrite omap_app, length_app. reflexivity. Qed.

Lemma run_moves qs q w :
  fst (run (map EvMouseMove qs ++ [EvMouseMove q]) w)
  = fst (mouseMoveEvent q w)
  /\ updates (snd (run (map EvMouseMove qs ++ [EvMouseMove q]) w))
     = if _inThreeSixtyMovement w then S (length qs) else 0%nat.
Proof.
  revert w. induction qs as [|q' qs IH]; intros w.
  - simpl. unfold seq, skip, emit.
    pose proof (mouseMoveEvent_updates q w) as Hu.
    destruct (mouseMoveEvent q w) as [w1 t1]. simpl in *.
    rewrite app_nil_r. split; [reflexivity | exact Hu].
  - change (run (map EvMouseMove (q' :: qs) ++ [EvMouseMove q]) w)
      with ((mouseMoveEvent q'
             >>> run (map EvMouseMove qs ++ [EvMouseMove q])) w).
    unfold seq.
    pose proof (mouseMoveEvent_updates q' w) as Hu.
    pose proof (mouseMoveEvent_active q' w) as Ha.
    pose proof (mouseMoveEvent_twice q q' w) as Ht.
    destruct (mouseMoveEvent q' w) as [w1 t1]. simpl in Hu, Ha, Ht.
    destruct (IH w1) as [IH1 IH2].
    destruct (run _ w1) as [w2 t2]. simpl in *.
    split; [congruence |].
    rewrite updates_app, Hu, IH2, Ha.
    destruct (_inThreeSixtyMovement w); reflexivity.
Qed.

(** X8: a drag depends on where it starts and where it ends, not on the
    way: press at [p], moves through [qs] to [q], release, leave the
    widget as press at [p], one move to [q], release; every move of the
    drag asks for a repaint. *)
Theorem drag_depends_on_last_position p qs q w :
  fst (run (EvMousePress p
            :: (map EvMouseMove qs ++ [EvMouseMove q]) ++ [EvMouseRelease]) w)
  = pressMoveRelease p q w
  /\ updates
       (snd (run (EvMousePress p
                  :: (map EvMouseMove qs ++ [EvMouseMove q])
                     ++ [EvMouseRelease]) w))
     = S (length qs).
Proof.
  change (run (EvMousePress p
               :: (map EvMouseMove qs ++ [EvMouseMove q])
                  ++ [EvMouseRelease]) w)
    with ((modify (mousePressEvent p)
           >>> run ((map EvMouseMove qs ++ [EvMouseMove q])
                    ++ [EvMouseRelease])) w).
  unfold seq, modify. rewrite run_app.
  destruct (run_moves qs q (mousePressEvent p w)) as [H1 H2].
  destruct (run (map EvMouseMove qs ++ [EvMouseMove q]) (mousePressEvent p w))
    as [w1 t1]. simpl in H1, H2.
  simpl. unfold seq, modify, skip, emit. simpl.
  rewrite H1. split; [reflexivity |].
  rewrite app_nil_r. exact H2.
Qed.

Lemma F64_sub_diag x : is_finite64 x = true -> F64.sub x x = S754_zero false.
Proof.
  destruct x as [[|] | | | s m e]; intros H; try discriminate H;
    try reflexivity.
  unfold F64.sub, SFsub. rewrite Z.sub_diag. reflexivity.
Qed.

Lemma F32_add_neg_zero x : F32.add x (S754_zero true) = x.
Proof. destruct x as [[|] | [|] | |]; reflexivity. Qed.

Lemma F32_add_zero x : sameNumber (F32.add x F32.zero) x.
Proof.
  destruct x as [[|] | [|] | |]; try (left; reflexivity).
  right. eauto.
Qed.

(** The fraction of a displacement of zero, negated and scaled. *)
Lemma zero_displacement_angle i scale :
  0 < i < 2 ^ 31 -> scale = f180 \/ scale = f90 ->
  F32.mul (F32.opp (F32.div (F32.of_double (S754_zero false)) (F32.of_int i)))
          scale
  = S754_zero true.
Proof.
  intros Hi Hs.
  destruct (of_int_normal i Hi) as (m & e & -> & _).
  destruct Hs as [-> | ->]; reflexivity.
Qed.

(** X9: a click that does not move the pointer leaves the orientation as
    it was: press at [p], a move to the same [p], release. *)
Theorem click_keeps_orientation p w :
  is_finite64 (xp p) = true -> is_finite64 (yp p) = true ->
  0 < _width w < 2 ^ 31 -> 0 < _height w < 2 ^ 31 ->
  _threeSixtyHorizontalAngleBase (pressMoveRelease p p w)
  = _threeSixtyHorizontalAngleBase w
  /\ _threeSixtyVerticalAngleBase (pressMoveRelease p p w)
     = _threeSixtyVerticalAngleBase w
  /\ _threeSixtyHorizontalAngleCurrent (pressMoveRelease p p w) = F32.zero
  /\ _threeSixtyVerticalAngleCurrent (pressMoveRelease p p w) = F32.zero.
Proof.
  intros Hx Hy Hw Hh.
  unfold pressMoveRelease, mouseMoveEvent, mousePressEvent. simpl.
  unfold move_xf, move_yf, move_dx, move_dy. simpl.
  rewrite !F64_sub_diag by assumption.
  rewrite !zero_displacement_angle by auto.
  rewrite !F32_add_neg_zero. repeat split.
Qed.

Lemma click_keeps_orientation_witness :
  _threeSixtyHorizontalAngleBase
    (pressMoveRelease (pixel 100 100) (pixel 100 100)
       (resizeGL 1000 1000 (Widget_new Mode_Left false)))
  = F32.zero.
Proof.
  apply (click_keeps_orientation (pixel 100 100)
           (resizeGL 1000 1000 (Widget_new Mode_Left false)));
    [reflexivity | reflexivity | simpl; lia | simpl; lia].
Defined.

Lemma F32_opp_sameNumber x y :
  sameNumber x y -> sameNumber (F32.opp x) (F32.opp y).
Proof.
  intros [-> | (s & s' & -> & ->)]; [left; reflexivity |].
  right. simpl. eauto.
Qed.

(** X10: the release does not turn the view: the angles that [paintGL]
    hands to the player after the release are the same numbers as
    before it. *)
Theorem release_keeps_view_direction w :
  exists pitch yaw pitch' yaw',
    threeSixtyAngles true w = Some (pitch, yaw)
    /\ threeSixtyAngles true (mouseReleaseEvent w) = Some (pitch', yaw')
    /\ sameNumber pitch' pitch /\ sameNumber yaw' yaw.
Proof.
  do 4 eexists. split; [reflexivity |]. split; [reflexivity |].
  split; apply F32_opp_sameNumber, F32_add_zero.
Qed.

(** X11: a press that is followed at once by the release leaves both
    base angles the numbers they were, in whatever state the press
    arrives; a press in the middle of a drag therefore discards what
    that drag has not committed. *)
Theorem press_release_keeps_base p w :
  sameNumber (_threeSixtyHorizontalAngleBase
                (mouseReleaseEvent (mousePressEvent p w)))
             (_threeSixtyHorizontalAngleBase w)
  /\ sameNumber (_threeSixtyVerticalAngleBase
                   (mouseReleaseEvent (mousePressEvent p w)))
                (_threeSixtyVerticalAngleBase w)
  /\ (forall q p',
        sameNumber (_threeSixtyHorizontalAngleBase
                      (mouseReleaseEvent
                         (mousePressEvent p'
                            (fst (mouseMoveEvent q (mousePressEvent p w))))))
                   (_threeSixtyHorizontalAngleBase w)).
Proof.
  split; [apply F32_add_zero |]. split; [apply F32_add_zero |].
  intros q p'. apply F32_add_zero.
Qed.

(** X12: a change of media in the middle of a drag ends the drag: the
    moves that follow and the release of the button leave all four
    angles at zero, and ask for no repaint. *)
Theorem mediaChanged_cancels_drag qs w :
  fst (run (EvMediaChanged :: map EvMouseMove qs ++ [EvMouseRelease]) w)
  = mediaChanged w
  /\ updates
       (snd (run (EvMediaChanged :: map EvMouseMove qs ++ [EvMouseRelease])
               w)) = 0%nat.
Proof.
  change (run (EvMediaChanged :: map EvMouseMove qs ++ [EvMouseRelease]) w)
    with ((modify mediaChanged
           >>> run (map EvMouseMove qs ++ [EvMouseRelease])) w).
  unfold seq, modify.
  assert (H : forall w', _inThreeSixtyMovement w' = false ->
            run (map EvMouseMove qs ++ [EvMouseRelease]) w'
            = (mouseReleaseEvent w', [])).
  { induction qs as [|q qs IH]; intros w' Hw'; [reflexivity |].
    simpl. unfold seq, mouseMoveEvent. rewrite Hw'. unfold skip, emit.
    rewrite IH by exact Hw'. reflexivity. }
  rewrite H by reflexivity. split; reflexivity.
Qed.

(** ** Initialization, then the first frame *)




(** ** More on the aspect fit *)

(** A positive number divided by itself is one. *)
Lemma SFdiv_diag m e :
  SFdiv 24 128 (S754_finite false m e) (S754_finite false m e) = F32.one.
Proof.
  destruct (SFdiv_finite_spec false m e false m e)
    as (m2 & Hb & Hm2 & -> & _).
  assert (He : div_e32 m e m e = -24).
  { unfold div_e32. rewrite fexp32_eq. lia. }
  assert (Hq : div_q32 m e m e = 2 ^ 24).
  { unfold div_q32. rewrite He.
    replace (e - e - -24) with 24 by lia.
    rewrite Z.mul_comm. apply Z.div_mul. lia. }
  rewrite Hq, He in *.
  change (cexp32 (2 ^ 24) (-24)) with (-23) in *.
  change (-23 - -24) with 1 in *.
  replace (e - e - -24) with 24 in Hm2 by lia.
  change (2 ^ 24 / 2 ^ 1) with (2 ^ 23) in Hm2.
  assert (m2 = 2 ^ 23) by (destruct Hm2 as [? | [? Hup]]; [assumption | lia]).
  subst m2. reflexivity.
Qed.

Lemma SFltb_irrefl_pos m e :
  SFltb (S754_finite false m e) (S754_finite false m e) = false.
Proof.
  unfold SFltb, SFcompare. rewrite Z.compare_refl.
  fold (Pos.compare m m). rewrite Pos.compare_refl. reflexivity.
Qed.

Lemma SFcompare_pos_finite_Eq mx ex my ey :
  SFcompare (S754_finite false mx ex) (S754_finite false my ey) = Some Eq ->
  ex = ey /\ mx = my.
Proof.
  unfold SFcompare.
  destruct (Z.compare_spec ex ey); try discriminate.
  fold (Pos.compare mx my).
  destruct (Pos.compare_spec mx my); try discriminate. auto.
Qed.

Lemma SFltb_leb x y : SFltb x y = true -> SFleb x y = true.
Proof.
  unfold SFltb, SFleb. destruct (SFcompare x y) as [[| |] |];
    try discriminate; reflexivity.
Qed.

Lemma finish32_negative_le_one m2 e1 :
  F32.leb (finish32 true m2 e1) F32.one = true.
Proof. apply SFltb_leb, finish32_negative_lt_one. Qed.

Lemma aspectFit_le_one sar far :
  pos_finite32 sar = true ->
  valid_binary 24 128 far = true -> is_nan far = false ->
  F32.leb (fst (if F32.ltb sar far then (F32.one, F32.div sar far)
                else (F32.div far sar, F32.one))) F32.one = true
  /\ F32.leb (snd (if F32.ltb sar far then (F32.one, F32.div sar far)
                   else (F32.div far sar, F32.one))) F32.one = true.
Proof.
  intros Hsar Hfar Hnan.
  destruct sar as [| | | [|] ms es]; try discriminate Hsar.
  simpl in Hsar. f32_consts.
  destruct far as [sf | sf | | sf mf ef]; [| | discriminate Hnan |].
  - destruct sf; split; reflexivity.
  - destruct sf; split; reflexivity.
  - destruct sf.
    + change (F32.ltb _ (S754_finite true mf ef)) with false.
      cbv iota. cbn [fst snd]. split; [| reflexivity].
      unfold F32.div. f32_consts.
      destruct (SFdiv_finite_spec true mf ef false ms es)
        as (m2 & _ & _ & -> & _).
      change (xorb true false) with true.
      apply finish32_negative_le_one.
    + simpl in Hfar.
      unfold F32.ltb, SFltb.
      destruct (SFcompare (S754_finite false ms es) (S754_finite false mf ef))
        as [[| |] |] eqn:Hc; cbn [fst snd].
      * apply SFcompare_pos_finite_Eq in Hc as [-> ->].
        unfold F32.div, F32.leb. f32_consts. rewrite SFdiv_diag.
        split; reflexivity.
      * split; [reflexivity |].
        apply SFltb_leb. unfold F32.div. f32_consts.
        apply SFdiv_lt_one; [assumption | assumption |].
        unfold SFltb. rewrite Hc. reflexivity.
      * split; [| reflexivity].
        apply SFltb_leb. unfold F32.div. f32_consts.
        apply SFdiv_lt_one; [assumption | assumption |].
        apply SFcompare_pos_finite_Gt, Hc.
      * discriminate Hc.
Qed.

(** X14: the aspect fit never enlarges: for a drawable of positive size
    and a ratio of the frame that is a number, neither factor is above
    one, so the picture stays inside the drawable. *)
Theorem aspectFit_never_enlarges width height far :
  0 < width < 2 ^ 31 -> 0 < height < 2 ^ 31 ->
  valid_binary F32.prec F32.emax far = true -> is_nan far = false ->
  F32.leb (fst (aspectFit width height far)) F32.one = true
  /\ F32.leb (snd (aspectFit width height far)) F32.one = true.
Proof.
  intros Hw Hh Hfar Hnan. unfold aspectFit.
  apply aspectFit_le_one; [| exact Hfar | exact Hnan].
  apply screenAspectRatio_pos_finite; assumption.
Qed.

Lemma aspectFit_never_enlarges_witness :
  F32.leb (fst (aspectFit 1080 1920 (F32.of_int 2))) F32.one = true
  /\ F32.leb (snd (aspectFit 1080 1920 (F32.of_int 2))) F32.one = true.
Proof.
  apply (aspectFit_never_enlarges 1080 1920 (F32.of_int 2));
    [lia | lia | reflexivity | reflexivity].
Defined.

(** X15: a frame whose ratio is the ratio of the drawable fills the
    drawable: both factors are exactly one. *)
Theorem aspectFit_matching_ratio width height :
  0 < width < 2 ^ 31 -> 0 < height < 2 ^ 31 ->
  aspectFit width height (screenAspectRatio width height)
  = (F32.one, F32.one).
Proof.
  intros Hw Hh. unfold aspectFit.
  pose proof (screenAspectRatio_pos_finite width height Hw Hh) as Hs.
  unfold screenAspectRatio in *.
  destruct (F32.div (F32.of_int width) (F32.of_int height))
    as [| | | [|] m e]; try discriminate Hs.
  unfold F32.ltb. rewrite SFltb_irrefl_pos.
  unfold F32.div. f32_consts. rewrite SFdiv_diag. reflexivity.
Qed.

Lemma aspectFit_matching_ratio_witness :
  aspectFit 1920 1080 (screenAspectRatio 1920 1080) = (F32.one, F32.one).
Proof. apply (aspectFit_matching_ratio 1920 1080); lia. Defined.

(** ** A drag that stays within reach *)

Lemma binary_round_aux_abs s m e l :
  SFabs (binary_round_aux 24 128 s m e l) = binary_round_aux 24 128 false m e l.
Proof.
  unfold binary_round_aux.
  destruct (shr_fexp 24 128 m e l) as [mrs' e'].
  destruct (shr_fexp 24 128 _ e' loc_Exact) as [mrs'' e''].
  destruct (shr_m mrs''); [reflexivity | | reflexivity].
  destruct (e'' <=? 128 - 24); reflexivity.
Qed.

(** The magnitude of a quotient and of a product. *)
Lemma SFabs_div x y :
  SFabs (SFdiv 24 128 x y) = SFdiv 24 128 (SFabs x) (SFabs y).
Proof.
  destruct x as [sx | sx | | sx mx ex], y as [sy | sy | | sy my ey];
    try reflexivity.
  simpl. destruct (SFdiv_core_binary _ _ _ _ _ _) as [[mz ez] lz].
  rewrite binary_round_aux_abs. reflexivity.
Qed.

Lemma SFabs_mul x y :
  SFabs (SFmul 24 128 x y) = SFmul 24 128 (SFabs x) (SFabs y).
Proof.
  destruct x as [sx | sx | | sx mx ex], y as [sy | sy | | sy my ey];
    try reflexivity.
  simpl. rewrite binary_round_aux_abs. reflexivity.
Qed.

Lemma SFabs_opp x : SFabs (SFopp x) = SFabs x.
Proof. destruct x; reflexivity. Qed.

Lemma SFleb_pos_finite mx ex my ey :
  SFleb (S754_finite false mx ex) (S754_finite false my ey) = true ->
  SFltb (S754_finite false mx ex) (S754_finite false my ey) = true
  \/ (ex = ey /\ mx = my).
Proof.
  unfold SFleb, SFltb.
  destruct (SFcompare _ _) as [[| |] |] eqn:Hc; try discriminate; intros _.
  - right. apply SFcompare_pos_finite_Eq, Hc.
  - now left.
Qed.

(** A quotient of two positive numbers, the first not above the second,
    is a number of the format that is not above one. *)
Lemma SFdiv_le_one mx ex my ey :
  bounded 24 128 mx ex = true -> bounded 24 128 my ey = true ->
  SFleb (S754_finite false mx ex) (S754_finite false my ey) = true ->
  valid_binary 24 128
    (SFdiv 24 128 (S754_finite false mx ex) (S754_finite false my ey)) = true
  /\ SFleb (SFdiv 24 128 (S754_finite false mx ex) (S754_finite false my ey))
           F32.one = true.
Proof.
  intros Hx Hy Hle. split.
  - destruct (SFdiv_finite_spec false mx ex false my ey)
      as (m2 & _ & _ & -> & Hv). exact Hv.
  - destruct (SFleb_pos_finite _ _ _ _ Hle) as [Hlt | [-> ->]].
    + apply SFltb_leb, SFdiv_lt_one; assumption.
    + rewrite SFdiv_diag. reflexivity.
Qed.

(** A canonical number that is not above one. *)
Lemma le_one_inv m e :
  bounded 24 128 m e = true ->
  SFleb (S754_finite false m e) F32.one = true ->
  e <= -23 /\ Z.pos m <= 2 ^ (- e).
Proof.
  intros Hb Hle.
  destruct (bounded32_inv m e Hb) as (Hm & He & Hn).
  change F32.one with (S754_finite false 8388608 (-23)) in Hle.
  unfold SFleb, SFcompare in Hle.
  destruct (Z.compare_spec e (-23)) as [-> | Hlt | Hgt].
  - fold (Pos.compare m 8388608) in Hle.
    destruct (Pos.compare_spec m 8388608); try discriminate Hle;
      simpl; lia.
  - split; [lia |].
    assert (2 ^ 24 <= 2 ^ (- e)) by (apply Z.pow_le_mono_r; lia). lia.
  - discriminate Hle.
Qed.

(** A number that is not above one, times a normal number [B * 2 ^ es],
    does not round above that number. *)
Lemma SFmul_scale_le m e B es :
  e <= -23 -> Z.pos m <= 2 ^ (- e) ->
  2 ^ 23 <= Z.pos B < 2 ^ 24 -> -149 <= es <= 104 ->
  SFleb (SFmul 24 128 (S754_finite false m e) (S754_finite false B es))
        (S754_finite false B es) = true.
Proof.
  intros He Hm HB Hes. unfold SFmul.
  change (xorb false false) with false. rewrite Pos2Z.inj_mul.
  set (M := Z.pos m * Z.pos B). set (E := e + es).
  assert (HM0 : 0 < M) by (subst M; lia).
  assert (Hpe : 0 < 2 ^ (- e)) by (apply Z.pow_pos_nonneg; lia).
  assert (HMB : M <= Z.pos B * 2 ^ (- e)) by (subst M; nia).
  (* the product has its 24 digits, and not more than the scale allows *)
  assert (HD24 : 24 <= Zdigits2 M).
  { apply Zdigits2_ge; [lia | lia |]. subst M. nia. }
  assert (HDle : Zdigits2 M <= 24 - e).
  { apply Zdigits2_le; [lia | lia |].
    replace (24 - e) with (24 + - e) by lia.
    rewrite pow2_split by lia. nia. }
  assert (Hpre : E <= cexp32 M E) by (rewrite cexp32_eq; lia).
  destruct (binary_round_aux_spec false M E loc_Exact ltac:(lia) Hpre)
    as (m2 & Hb & Hm2 & -> & _).
  assert (He1 : cexp32 M E <= es) by (rewrite cexp32_eq; subst E; lia).
  set (e1 := cexp32 M E) in *.
  set (n0 := e1 - E) in *.
  assert (Hn0 : 0 <= n0) by (subst n0; lia).
  assert (Hpn : 0 < 2 ^ n0) by (apply Z.pow_pos_nonneg; lia).
  set (Bs := Z.pos B * 2 ^ (es - e1)).
  assert (HMs : M <= 2 ^ n0 * Bs).
  { subst Bs. replace (- e) with ((es - e1) + n0) in HMB by (subst n0 E; lia).
    rewrite pow2_split in HMB by lia. lia. }
  assert (Hm1 : M / 2 ^ n0 <= Bs)
    by (apply Z.div_le_upper_bound; [exact Hpn | exact HMs]).
  assert (Hm2le : m2 <= Bs).
  { destruct Hm2 as [-> | [-> [[_ [Hl | Hl]] | [_ Hup]]]];
      [exact Hm1 | discriminate Hl | discriminate Hl |].
    nia. }
  assert (Hps : 0 < 2 ^ (es - e1)) by (apply Z.pow_pos_nonneg; lia).
  unfold finish32, SFleb.
  destruct (Z.eqb_spec m2 0) as [-> | H0]; [reflexivity |].
  destruct (Z.eqb_spec m2 (2 ^ 24)) as [-> | H24].
  - assert (e1 < es).
    { destruct (Z.eq_dec e1 es) as [Heq | ?]; [| lia].
      subst Bs. rewrite Heq, Z.sub_diag, Z.pow_0_r in Hm2le. lia. }
    destruct (Z.leb_spec (e1 + 1) 104); [| lia].
    unfold SFcompare.
    destruct (Z.compare_spec (e1 + 1) es); [| reflexivity | lia].
    fold (Pos.compare (2 ^ 23) B).
    destruct (Pos.compare_spec (2 ^ 23) B); try reflexivity.
    change (Z.pos (2 ^ 23)) with (2 ^ 23) in *. lia.
  - destruct (Z.leb_spec e1 104); [| lia].
    unfold SFcompare.
    destruct (Z.compare_spec e1 es) as [Heq | ? | ?]; [| reflexivity | lia].
    fold (Pos.compare (Z.to_pos m2) B).
    destruct (Pos.compare_spec (Z.to_pos m2) B) as [? | ? | Hgt];
      try reflexivity.
    subst Bs. rewrite Heq, Z.sub_diag, Z.pow_0_r in Hm2le.
    apply Pos2Z.pos_lt_pos in Hgt. rewrite Z2Pos.id in Hgt by lia. lia.
Qed.

Lemma shl_align_cexp32 m e :
  exists mz ez,
    shl_align m e (fexp 24 128 (Z.pos (digits2_pos m) + e)) = (mz, ez)
    /\ ez <= cexp32 (Z.pos mz) ez.
Proof.
  unfold shl_align. rewrite fexp32_eq.
  change (Z.pos (digits2_pos m)) with (Zdigits2 (Z.pos m)).
  destruct (Z.max (Zdigits2 (Z.pos m) + e - 24) (-149) - e) as [|d|d] eqn:Hd.
  - exists m, e. split; [reflexivity |]. rewrite cexp32_eq. lia.
  - exists m, e. split; [reflexivity |]. rewrite cexp32_eq. lia.
  - eexists _, _. split; [reflexivity |].
    rewrite cexp32_eq, Pos_iter_xO, Zdigits2_mul_pow2 by lia. lia.
Qed.

(** The conversion from binary64 yields a number of the format. *)
Lemma of_double_valid d : valid_binary 24 128 (F32.of_double d) = true.
Proof.
  destruct d as [s | s | | s m e]; try reflexivity.
  unfold F32.of_double, binary_round. f32_consts.
  destruct (shl_align_cexp32 m e) as (mz & ez & -> & Hpre).
  destruct (binary_round_aux_spec s (Z.pos mz) ez loc_Exact ltac:(lia) Hpre)
    as (m2 & _ & _ & -> & Hv).
  exact Hv.
Qed.

Lemma SFabs_pos_finite x : pos_finite32 x = true -> SFabs x = x.
Proof. destruct x as [| | | [|] m e]; try discriminate; reflexivity. Qed.

(** The fraction and the angle of a displacement that is not longer
    than the widget is wide (or high): with [scale] 180 or 90, the
    fraction is in [-1,+1] and the angle in [-scale,+scale]. *)
Lemma within_reach dx i scale :
  0 < i < 2 ^ 31 -> scale = f180 \/ scale = f90 ->
  valid_binary 24 128 dx = true ->
  F32.leb (SFabs dx) (F32.of_int i) = true ->
  F32.leb (SFabs (F32.div dx (F32.of_int i))) F32.one = true
  /\ F32.leb (SFabs (F32.mul (F32.opp (F32.div dx (F32.of_int i))) scale))
             scale = true.
Proof.
  intros Hi Hs Hv Hle.
  destruct (of_int_normal i Hi) as (mi & ei & HW & Hbi & Hmi & Hei).
  rewrite HW in *.
  assert (Hscale : exists es, scale = S754_finite false 11796480 es
                              /\ -149 <= es <= 104).
  { destruct Hs as [-> | ->]; [exists (-16) | exists (-17)];
      (split; [reflexivity | lia]). }
  destruct Hscale as (es & -> & Hes).
  unfold F32.leb, F32.div, F32.mul, F32.opp in *. f32_consts.
  rewrite SFabs_mul, SFabs_opp, SFabs_div.
  change (SFabs (S754_finite false mi ei)) with (S754_finite false mi ei).
  change (SFabs (S754_finite false 11796480 es))
    with (S754_finite false 11796480 es).
  destruct dx as [s | s | | s m e];
    [| destruct s; discriminate Hle | discriminate Hle |].
  - split; reflexivity.
  - simpl SFabs in *. simpl in Hv.
    destruct (SFdiv_le_one m e mi ei Hv Hbi Hle) as [Hrv Hr1].
    destruct (SFdiv_finite_spec false m e false mi ei)
      as (m2 & _ & _ & Heq & _).
    rewrite Heq in *. change (xorb false false) with false in *.
    split; [exact Hr1 |].
    unfold finish32 in *.
    destruct (m2 =? 0); [reflexivity |].
    destruct (m2 =? 2 ^ 24);
      (destruct (_ <=? 104); [| discriminate Hr1]);
      destruct (le_one_inv _ _ Hrv Hr1) as [He1 Hm1];
      apply SFmul_scale_le; try assumption; lia.
Qed.

(** X16: while the displacement that [mouseMoveEvent] computes is not
    longer than the widget is wide and high, the fractions [xf] and [yf]
    are in [-1,+1], the current horizontal angle is in [-180,+180] and
    the current vertical angle in [-90,+90]. *)
Theorem move_within_reach q w :
  _inThreeSixtyMovement w = true ->
  0 < _width w < 2 ^ 31 -> 0 < _height w < 2 ^ 31 ->
  F32.leb (SFabs (move_dx q w)) (F32.of_int (_width w)) = true ->
  F32.leb (SFabs (move_dy q w)) (F32.of_int (_height w)) = true ->
  F32.leb (SFabs (move_xf q w)) F32.one = true
  /\ F32.leb (SFabs (move_yf q w)) F32.one = true
  /\ F32.leb
       (SFabs (_threeSixtyHorizontalAngleCurrent (fst (mouseMoveEvent q w))))
       f180 = true
  /\ F32.leb
       (SFabs (_threeSixtyVerticalAngleCurrent (fst (mouseMoveEvent q w))))
       f90 = true.
Proof.
  intros Hact Hw Hh Hdx Hdy.
  unfold mouseMoveEvent. rewrite Hact. simpl.
  unfold move_xf, move_yf in *.
  destruct (within_reach (move_dx q w) (_width w) f180 Hw (or_introl eq_refl)
              (of_double_valid _) Hdx) as [Hx1 Hx2].
  destruct (within_reach (move_dy q w) (_height w) f90 Hh (or_intror eq_refl)
              (of_double_valid _) Hdy) as [Hy1 Hy2].
  auto.
Qed.

Lemma move_within_reach_witness :
  F32.leb
    (SFabs (_threeSixtyHorizontalAngleCurrent
              (fst (mouseMoveEvent (pixel 1100 100)
                      (mousePressEvent (pixel 100 100)
                         (resizeGL 1000 1000 (Widget_new Mode_Left false)))))))
    f180 = true.
Proof.
  apply (move_within_reach (pixel 1100 100)
           (mousePressEvent (pixel 100 100)
              (resizeGL 1000 1000 (Widget_new Mode_Left false))));
    [reflexivity | simpl; lia | simpl; lia
     | vm_compute; reflexivity | vm_compute; reflexivity].
Defined.

(** ** Frames and gestures do not interfere *)

Lemma handle_gestureState e w1 w2 :
  gestureState w1 = gestureState w2 ->
  gestureState (fst (handle e w1)) = gestureState (fst (handle e w2)).
Proof.
  intros H.
  destruct e as [m | wd ht | g a fg | p | q | |]; simpl.
  - exact H.
  - unfold gestureState in *. simpl. congruence.
  - rewrite !(paintGL_keeps gestureState) by reflexivity. exact H.
  - unfold gestureState in *. simpl. congruence.
  - destruct w1, w2. unfold gestureState in H. cbn in H.
    injection H as Ha Hs Hhb Hvb Hhc Hvc Hw Hh. subst.
    unfold mouseMoveEvent. cbn [_inThreeSixtyMovement].
    match goal with |- context [if ?b then _ else _] => destruct b end;
      reflexivity.
  - unfold gestureState in *. simpl. congruence.
  - unfold gestureState in *. simpl. congruence.
Qed.

Lemma handle_keeps_gestureState e w :
  movesView e = false -> gestureState (fst (handle e w)) = gestureState w.
Proof.
  destruct e; try discriminate; intros _; simpl; [reflexivity |].
  apply (paintGL_keeps gestureState); reflexivity.
Qed.

Lemma run_cons e es w :
  fst (run (e :: es) w) = fst (run es (fst (handle e w))).
Proof.
  simpl. unfold seq. destruct (handle e w) as [w0 t0]. cbn [fst].
  destruct (run es w0). reflexivity.
Qed.

(** X17: repaints and changes of the mode between the events of a gesture
    do not change what the gesture does: the orientation after any
    events is the orientation after the same events without the
    [paintGL] and [setStereoMode] calls. *)
Theorem gestures_ignore_repaints es w :
  gestureState (fst (run es w))
  = gestureState (fst (run (List.filter movesView es) w)).
Proof.
  assert (H : forall w1 w2, gestureState w1 = gestureState w2 ->
            gestureState (fst (run es w1))
            = gestureState (fst (run (List.filter movesView es) w2))).
  { induction es as [|e es IH]; intros w1 w2 Hw; [exact Hw |].
    rewrite run_cons. simpl List.filter.
    destruct (movesView e) eqn:He.
    - rewrite run_cons. apply IH, handle_gestureState, Hw.
    - apply IH. rewrite handle_keeps_gestureState by exact He. exact Hw. }
  apply H. reflexivity.
Qed.

Lemma paintGL_frameState isGLES a360 fg w1 w2 :
  frameState w1 = frameState w2 ->
  frameState (fst (paintGL isGLES a360 fg w1))
  = frameState (fst (paintGL isGLES a360 fg w2)).
Proof.
  intros H. destruct w1, w2. unfold frameState in H. cbn in H.
  injection H as Hm Hs Ha Htw Hth Hwd Hht. subst.
  rewrite !paintGL_state_eq, !updateAlternating_eq, !fillViewTexture_eq.
  unfold adjustStereoMode, sizeDiffers.
  cbn [_stereoMode _alternatingLastView _viewTexWidth _viewTexHeight].
  destruct (negb (frameIsStereo fg));
    repeat (match goal with
            | |- context [if ?b then _ else _] =>
                lazymatch b with
                | context [if _ then _ else _] => fail
                | ?x && _ => destruct x
                | ?x || _ => destruct x
                | _ => destruct b
                end
            end;
            cbn [andb orb fst set_viewTexSize _stereoMode
                 _alternatingLastView _viewTexWidth _viewTexHeight]);
    reflexivity.
Qed.

Lemma handle_frameState e w1 w2 :
  frameState w1 = frameState w2 ->
  frameState (fst (handle e w1)) = frameState (fst (handle e w2)).
Proof.
  intros H.
  destruct e as [m | wd ht | g a fg | p | q | |]; simpl;
    try (unfold frameState in *; simpl; congruence).
  - apply paintGL_frameState, H.
  - unfold mouseMoveEvent.
    destruct (_inThreeSixtyMovement w1); destruct (_inThreeSixtyMovement w2);
      exact H.
Qed.

Lemma handle_keeps_frameState e w :
  isGesture e = true -> frameState (fst (handle e w)) = frameState w.
Proof.
  destruct e; try discriminate; intros _; simpl; try reflexivity.
  unfold mouseMoveEvent. destruct (_inThreeSixtyMovement w); reflexivity.
Qed.

(** X18: what the widget does on pointer events and on a change of
    media does not change what the frames do to the textures and to the
    parity: the mode, the parity, the stored texture sizes and the size
    of the drawable after any events are those after the same events
    without the pointer events and the [mediaChanged] calls, that is
    after the [paintGL], [setStereoMode] and [resizeGL] calls alone,
    every [paintGL] being given the same frame geometry as before. *)
Theorem frames_ignore_gestures es w :
  frameState (fst (run es w))
  = frameState (fst (run (withoutGestures es) w)).
Proof.
  assert (H : forall w1 w2, frameState w1 = frameState w2 ->
            frameState (fst (run es w1))
            = frameState (fst (run (withoutGestures es) w2))).
  { induction es as [|e es IH]; intros w1 w2 Hw; [exact Hw |].
    rewrite run_cons. unfold withoutGestures. simpl List.filter.
    fold (withoutGestures es).
    destruct (isGesture e) eqn:He; cbn [negb].
    - apply IH. rewrite handle_keeps_frameState by exact He. exact Hw.
    - rewrite run_cons. apply IH, handle_frameState, Hw. }
  apply H. reflexivity.
Qed.
